(** * Anatomize: tokenizer, character matcher and parser facade

    A shallow embedding of [anatomize.ts] (v1.1.1).  JavaScript strings are
    [string]s, array indices and offsets that the caller supplies are [Z],
    [null]/[undefined] is [None], and a thrown exception is the [Throw]
    outcome of a state-passing computation (the state a method leaves
    behind when it throws is part of its result). *)

From Stdlib Require Import List String Ascii ZArith Lia Bool Arith.
Import ListNotations.

Local Open Scope string_scope.
Local Open Scope nat_scope.

(** ** JavaScript values used by the program *)

(** The exceptions the program throws, with their messages; [UserError] is
    anything a matcher routine or the grammar function throws itself. *)
Inductive error : Type :=
| SyntaxError (msg : string)
| TypeError (msg : string)
| RangeError (msg : string)
| UserError (msg : string).

Inductive outcome (A : Type) : Type :=
| Ok (a : A)
| Throw (e : error).
Arguments Ok {A} a.
Arguments Throw {A} e.

(** A computation over a mutable object of type [S] that may throw. *)
Definition M (S A : Type) : Type := S -> outcome A * S.

Definition ret {S A} (a : A) : M S A := fun s => (Ok a, s).
Definition throw {S A} (e : error) : M S A := fun s => (Throw e, s).
Definition bind {S A B} (m : M S A) (f : A -> M S B) : M S B :=
  fun s => match m s with
           | (Ok a, s') => f a s'
           | (Throw e, s') => (Throw e, s')
           end.

Notation "x <- m ;; k" := (bind m (fun x => k))
  (at level 61, m at next level, right associativity).
Notation "m ;;; k" := (bind m (fun _ => k))
  (at level 61, right associativity).

(** The double-quote character that appears inside error messages. *)
Definition dquote : string := String (ascii_of_nat 34) EmptyString.

(** [s.slice(n)] for [0 <= n]. *)
Fixpoint slice (n : nat) (s : string) : string :=
  match n, s with
  | 0, _ => s
  | S n', String _ s' => slice n' s'
  | S _, EmptyString => EmptyString
  end.

(** [s[i]], [undefined] outside the string. *)
Definition char_at (s : string) (i : Z) : option ascii :=
  if (i <? 0)%Z then None else String.get (Z.to_nat i) s.

(** [a[i]] on an array, [undefined] outside of it. *)
Definition array_get {A : Type} (a : list A) (i : Z) : option A :=
  if (i <? 0)%Z then None else nth_error a (Z.to_nat i).

(** Truthiness of a string-or-null value: [null] and the empty string are
    falsy. *)
Definition truthy (v : option string) : bool :=
  match v with
  | Some (String _ _) => true
  | _ => false
  end.

(** ** Character Matcher (the class [Anatomize.#Matcher]) *)

Module Matcher.

(** The private fields [#buffer], [#index] and [#result]. *)
Record t : Type := mk {
  buffer : string;
  index : nat;
  result : string
}.

(** The [constraint] argument of [readChar]/[omitChar]: absent, a
    string, or an array of strings. *)
Inductive constraint : Type :=
| NoConstraint
| CString (s : string)
| CArray (l : list string).

(** [if (constraint)]: an absent constraint and the empty string are
    falsy, every array is truthy. *)
Definition given (c : constraint) : bool :=
  match c with
  | NoConstraint => false
  | CString s => truthy (Some s)
  | CArray _ => true
  end.

Definition constraintCheck (input : string) (c : constraint) : bool :=
  match c with
  | CArray l => existsb (String.eqb input) l
  | CString s => String.eqb (substring 0 1 s) input
  | NoConstraint => false
  end.

Definition isEOF : M t bool :=
  fun m => (Ok (String.length (buffer m) <=? index m), m).

Definition charAt (i : Z) : M t (option ascii) :=
  fun m => (Ok (char_at (buffer m) i), m).

Definition peekChar (offset : Z) : M t (option ascii) :=
  fun m => (Ok (char_at (buffer m) (Z.of_nat (index m) + offset)), m).

Definition getIndex : M t nat :=
  fun m => (Ok (index m), m).

(** The current character as the one-character string [buffer[index]]. *)
Definition current (m : t) : string := substring (index m) 1 (buffer m).

Definition readChar (c : constraint) : M t (option ascii) :=
  eof <- isEOF ;;
  if eof then
    throw (RangeError "Unexpected End of Input; Cannot read another Character")
  else fun m =>
    if given c && negb (constraintCheck (current m) c) then (Ok None, m)
    else (Ok (String.get (index m) (buffer m)),
          mk (buffer m) (S (index m)) (result m ++ current m)).

Definition omitChar (c : constraint) : M t (option ascii) :=
  eof <- isEOF ;;
  if eof then
    throw (RangeError "Unexpected End of Input; Cannot omit another Character")
  else fun m =>
    if given c && negb (constraintCheck (current m) c) then (Ok None, m)
    else (Ok (String.get (index m) (buffer m)),
          mk (buffer m) (S (index m)) (result m)).

(** What the matching routine returns: [match] only distinguishes
    [false] and [null] from everything else ([undefined] included). *)
Inductive retval : Type :=
| RFalse
| RNull
| ROther.

(** A matching routine is user code that reaches the matcher only
    through the six operations it is handed, in this order: [readChar],
    [peekChar], [omitChar], [isEOF], [charAt], [getIndex].  One run of
    it is the tree of the calls it makes. *)
Inductive routine : Type :=
| Return (v : retval)
| Raise (e : error)
| ReadChar (c : constraint) (k : option ascii -> routine)
| PeekChar (offset : Z) (k : option ascii -> routine)
| OmitChar (c : constraint) (k : option ascii -> routine)
| IsEOF (k : bool -> routine)
| CharAt (i : Z) (k : option ascii -> routine)
| GetIndex (k : nat -> routine).

Fixpoint run (r : routine) : M t retval :=
  match r with
  | Return v => ret v
  | Raise e => throw e
  | ReadChar c k => x <- readChar c ;; run (k x)
  | PeekChar o k => x <- peekChar o ;; run (k x)
  | OmitChar c k => x <- omitChar c ;; run (k x)
  | IsEOF k => x <- isEOF ;; run (k x)
  | CharAt i k => x <- charAt i ;; run (k x)
  | GetIndex k => x <- getIndex ;; run (k x)
  end.

(** A routine's loops are bounded by its input only (which it can
    inspect through [charAt]), so the terminating routines are given as
    one call tree per input. *)
Definition pattern : Type := string -> routine.

(** [match(input)]: the triple [[returned, result || null, index]]. *)
Definition match_ (p : pattern) (input : string)
  : outcome (retval * option string * nat) :=
  match run (p input) (mk input 0 EmptyString) with
  | (Ok v, m) =>
      Ok (v, (if truthy (Some (result m)) then Some (result m) else None),
          index m)
  | (Throw e, _) => Throw e
  end.

End Matcher.

(** ** Fixed patterns (the host's [RegExp]) *)

(** [INPUT.match(re)] searches [INPUT] for the first match of the pattern
    and yields where it starts and how long it is; the matched text
    [match[0]] is that piece of [INPUT].  Nothing in [String.prototype.match]
    ties the match to the start of [INPUT]: that is up to the pattern (a
    leading [^]).  Patterns carry no state between calls (no sticky flag). *)
Record RegExp : Type := mkRegExp {
  exec : string -> option (nat * nat)
}.

(** [INPUT.match(re)?.[0] ?? null] *)
Definition string_match (INPUT : string) (re : RegExp) : option string :=
  match exec re INPUT with
  | Some (i, n) => Some (substring i n INPUT)
  | None => None
  end.

(** Length of the longest prefix of [s] whose characters are all in [cls]. *)
Fixpoint span (cls : ascii -> bool) (s : string) : nat :=
  match s with
  | String c s' => if cls c then S (span cls s') else 0
  | EmptyString => 0
  end.

(** Position of the first character of [s] that is in [cls]. *)
Fixpoint first_in (cls : ascii -> bool) (s : string) : option nat :=
  match s with
  | String c s' =>
      if cls c then Some 0
      else match first_in cls s' with Some i => Some (S i) | None => None end
  | EmptyString => None
  end.

(** The patterns [/^[cls]+/] ([anchored = true]) and [/[cls]+/]. *)
Definition re_plus (anchored : bool) (cls : ascii -> bool) : RegExp :=
  mkRegExp (fun s =>
    if anchored then
      match span cls s with 0 => None | n => Some (0, n) end
    else
      match first_in cls s with
      | Some i => Some (i, span cls (slice i s))
      | None => None
      end).

Definition is_digit (c : ascii) : bool :=
  (48 <=? nat_of_ascii c) && (nat_of_ascii c <=? 57).
Definition is_newline (c : ascii) : bool := nat_of_ascii c =? 10.
Definition is_space (c : ascii) : bool :=
  let n := nat_of_ascii c in
  (n =? 32) || (n =? 9) || (n =? 10) || (n =? 11) || (n =? 12) || (n =? 13).
Definition is_char (d c : ascii) : bool := Ascii.eqb d c.
Definition is_letter (c : ascii) : bool :=
  (97 <=? nat_of_ascii c) && (nat_of_ascii c <=? 122).

(** ** Tokens and token types *)

(** The matcher a token type holds after [#addTokenType]: a [#Matcher]
    wrapping the routine, or the [RegExp] itself ([#addTokenType] admits
    nothing else, so the [TypeError('Unexpected Matcher')] arm of
    [#readToken] has no input). *)
Inductive matcher : Type :=
| MatcherObj (p : Matcher.pattern)
| RegExpObj (re : RegExp).

(** [interface TokenType]; a [name] of [null] is [None]. *)
Record TokenType : Type := mkTokenType {
  name : option string;
  tmatcher : matcher;
  thidden : bool
}.

(** [interface Token] *)
Record Token : Type := mkToken {
  type : string;
  value : string;
  hidden : bool
}.

(** [Token?.hidden] as a condition, [Token] possibly [null]. *)
Definition is_hidden (Token : option Token) : bool :=
  match Token with
  | Some t => hidden t
  | None => false
  end.

(** [Token?.type !== tokenType] *)
Definition type_differs (Token : option Token) (tokenType : string) : bool :=
  match Token with
  | Some t => negb (String.eqb (type t) tokenType)
  | None => true
  end.

(** ** Tokenizer (the class [Anatomize.#TokenizerClass]) *)

Module Tokenizer.

(** The fields; [lookaheadBuffer] may hold [null] (see [readToken]).
    The four private fields are unset until the first [initialize],
    which assigns all of them before anything reads them. *)
Record t : Type := mk {
  TokenTypes : list TokenType;
  buffer : string;
  index : nat;
  lookaheadBuffer : list (option Token);
  lookaheadIndex : nat
}.

Definition create : t := mk [] EmptyString 0 [] 0.

Definition isEOF (T : t) : bool := String.length (buffer T) <=? index T.

Definition advance (n : nat) (T : t) : t :=
  mk (TokenTypes T) (buffer T) (index T + n) (lookaheadBuffer T)
     (lookaheadIndex T).

(** The first half of the loop body of [#readToken]: the pair
    [(tokenValue, tokenLength)] a token type's matcher leaves. *)
Definition attempt (m : matcher) (INPUT : string)
  : outcome (option string * nat) :=
  match m with
  | MatcherObj p =>
      match Matcher.match_ p INPUT with
      | Ok (Matcher.RFalse, _, _) | Ok (Matcher.RNull, _, _) => Ok (None, 0)
      | Ok (Matcher.ROther, tokenValue, tokenLength) =>
          Ok (tokenValue, tokenLength)
      | Throw e => Throw e
      end
  | RegExpObj re =>
      let tokenValue := string_match INPUT re in
      Ok (tokenValue,
          match tokenValue with Some v => String.length v | None => 0 end)
  end.

(** [!tokenValue && 1 > tokenLength]: the matcher reported no match. *)
Definition no_match (tokenValue : option string) (tokenLength : nat) : bool :=
  negb (truthy tokenValue) && (tokenLength <? 1).

(** The token a match emits: none when [!TokenType.name || !tokenValue],
    else [{type: TokenType.name, value: tokenValue, hidden:
    TokenType.hidden}]. *)
Definition emitted (TokenType : TokenType) (tokenValue : option string)
  : option Token :=
  match name TokenType, tokenValue with
  | Some n, Some v =>
      if truthy (Some n) && truthy (Some v)
      then Some (mkToken n v (thidden TokenType))
      else None
  | _, _ => None
  end.

Definition undefined_token (INPUT : string) : error :=
  SyntaxError ("Undefined Token " ++ dquote ++ INPUT ++ dquote).

(** The [for (const TokenType of this.TokenTypes)] loop of [#readToken]
    over the token types still to try; [again] is the recursive call
    [this.#readToken()]. *)
Fixpoint for_TokenTypes (again : t -> option (outcome (option Token) * t))
    (INPUT : string) (types : list TokenType) (T : t)
  : option (outcome (option Token) * t) :=
  match types with
  | [] => Some (Throw (undefined_token INPUT), T)
  | TokenType :: rest =>
      match attempt (tmatcher TokenType) INPUT with
      | Throw e => Some (Throw e, T)
      | Ok (tokenValue, tokenLength) =>
          if no_match tokenValue tokenLength then
            for_TokenTypes again INPUT rest T
          else
            let T' := advance tokenLength T in
            match emitted TokenType tokenValue with
            | None => if isEOF T' then Some (Ok None, T') else again T'
            | Some Token => Some (Ok (Some Token), T')
            end
      end
  end.

(** [#readToken()]; [fuel] bounds the chain of recursive calls, [None]
    is a chain that is longer. *)
Fixpoint readToken (fuel : nat) (T : t)
  : option (outcome (option Token) * t) :=
  match fuel with
  | 0 => None
  | S fuel' =>
      for_TokenTypes (readToken fuel') (slice (index T) (buffer T))
                     (TokenTypes T) T
  end.

Definition push (Token : option Token) (T : t) : t :=
  mk (TokenTypes T) (buffer T) (index T) (lookaheadBuffer T ++ [Token])
     (lookaheadIndex T).

(** [while (!this.#isEOF()) this.#lookaheadBuffer.push(this.#readToken())] *)
Fixpoint fill (fuel : nat) (T : t) : option (outcome unit * t) :=
  match fuel with
  | 0 => None
  | S fuel' =>
      if isEOF T then Some (Ok tt, T)
      else match readToken fuel' T with
           | None => None
           | Some (Throw e, T') => Some (Throw e, T')
           | Some (Ok Token, T') => fill fuel' (push Token T')
           end
  end.

(** [initialize(source)]: every match consumes a character, so the
    length of the source bounds both loops. *)
Definition initialize (source : string) (T : t) : option (outcome unit * t) :=
  fill (S (String.length source)) (mk (TokenTypes T) source 0 [] 0).

(** [peekToken(offset)] *)
Definition peekToken (offset : Z) (T : t) : option Token :=
  match array_get (lookaheadBuffer T) (Z.of_nat (lookaheadIndex T) + offset) with
  | Some Token => Token
  | None => None
  end.

(** [nextToken()] *)
Definition nextToken : M t (option Token) :=
  fun T =>
    if List.length (lookaheadBuffer T) <=? lookaheadIndex T then (Ok None, T)
    else (Ok (match nth_error (lookaheadBuffer T) (lookaheadIndex T) with
              | Some Token => Token
              | None => None
              end),
          mk (TokenTypes T) (buffer T) (index T) (lookaheadBuffer T)
             (S (lookaheadIndex T))).

End Tokenizer.

(** ** Parser Facade (the class [Anatomize]) *)

(** The mutable fields [#Tokenizer] and [#parsing]; [#main] never changes
    after construction and is a parameter of [parse]. *)
Record Anatomize : Type := mkAnatomize {
  tokenizer : Tokenizer.t;
  parsing : bool
}.

(** [new Anatomize(main)] *)
Definition create : Anatomize := mkAnatomize Tokenizer.create false.

Definition set_parsing (b : bool) (A : Anatomize) : Anatomize :=
  mkAnatomize (tokenizer A) b.

Definition set_tokenizer (T : Tokenizer.t) (A : Anatomize) : Anatomize :=
  mkAnatomize T (parsing A).

Definition whilst_parsing : error :=
  SyntaxError "Unexpected Method Call; Method may not be called whilst parsing".

Definition only_whilst_parsing : error :=
  SyntaxError "Unexpected Method Call; Method may only be called whilst parsing".

Definition errorIfParsing : M Anatomize unit :=
  fun A => if parsing A then (Throw whilst_parsing, A) else (Ok tt, A).

Definition errorIfNotParsing : M Anatomize unit :=
  fun A => if negb (parsing A) then (Throw only_whilst_parsing, A)
           else (Ok tt, A).

(** [parse(source)], for a main function [main] that returns an [R].  The
    grammar function works on the facade it closes over; it is any
    computation on the facade's state. *)
Definition parse {R : Type} (main : M Anatomize R) (source : string)
    (A : Anatomize) : option (outcome R * Anatomize) :=
  match errorIfParsing A with
  | (Throw e, A0) => Some (Throw e, A0)
  | (Ok _, A0) =>
      let A1 := set_parsing true A0 in
      match Tokenizer.initialize source (tokenizer A1) with
      | None => None
      | Some (Throw e, T) => Some (Throw e, set_tokenizer T A1)
      | Some (Ok _, T) =>
          (* try { return this.#main(); } finally { this.#parsing = false; } *)
          let (r, A2) := main (set_tokenizer T A1) in
          Some (r, set_parsing false A2)
      end
  end.

(** What a caller can pass as the [matcher] argument of a registration. *)
Inductive matcher_arg : Type :=
| AFunction (p : Matcher.pattern)
| ARegExp (re : RegExp)
| AOther (typeof : string).

Definition addTokenType (n : option string) (m : matcher_arg) (h : bool)
  : M Anatomize unit :=
  errorIfParsing ;;;
  match m with
  | AOther typeof =>
      throw (TypeError
               ("Unexpected Type of Matcher; Expected " ++ dquote ++ "function"
                ++ dquote ++ " or RegExp, got " ++ dquote ++ typeof ++ dquote))
  | AFunction p => fun A =>
      let T := tokenizer A in
      (Ok tt, set_tokenizer
                (Tokenizer.mk (Tokenizer.TokenTypes T
                               ++ [mkTokenType n (MatcherObj p) h])
                   (Tokenizer.buffer T) (Tokenizer.index T)
                   (Tokenizer.lookaheadBuffer T) (Tokenizer.lookaheadIndex T)) A)
  | ARegExp re => fun A =>
      let T := tokenizer A in
      (Ok tt, set_tokenizer
                (Tokenizer.mk (Tokenizer.TokenTypes T
                               ++ [mkTokenType n (RegExpObj re) h])
                   (Tokenizer.buffer T) (Tokenizer.index T)
                   (Tokenizer.lookaheadBuffer T) (Tokenizer.lookaheadIndex T)) A)
  end.

Definition registerToken (n : option string) (m : matcher_arg)
  : M Anatomize unit := addTokenType n m false.

Definition registerHiddenToken (n : option string) (m : matcher_arg)
  : M Anatomize unit := addTokenType n m true.

(** [do { Token = this.#Tokenizer.peekToken(offset++); } while (Token?.hidden)],
    yielding the final [Token]; [n] counts the buffer slots the walk can
    still cross (a hidden token sits inside the buffer, so after as many
    steps as the buffer is long the walk is past its end and sees [null]). *)
Fixpoint peek_loop (n : nat) (offset : Z) (T : Tokenizer.t) : option Token :=
  let Token := Tokenizer.peekToken offset T in
  match n with
  | S n' => if is_hidden Token then peek_loop n' (offset + 1)%Z T else Token
  | 0 => Token
  end.

Definition peek (offset : Z) : M Anatomize (option Token) :=
  errorIfNotParsing ;;;
  fun A =>
    let Token := peek_loop (List.length (Tokenizer.lookaheadBuffer (tokenizer A)))
                           offset (tokenizer A) in
    (Ok (if is_hidden Token then None else Token), A).

Definition isEOF : M Anatomize bool :=
  errorIfNotParsing ;;;
  Token <- peek 0%Z ;;
  ret (match Token with Some _ => false | None => true end).

Definition isPeekType (tokenType : string) (offset : Z) : M Anatomize bool :=
  Token <- peek offset ;;
  ret (match Token with
       | Some t => String.eqb (type t) tokenType
       | None => false
       end).

(** [do { Token = this.#Tokenizer.nextToken(); }
     while (Token?.hidden && Token?.type !== tokenType)]; [n] counts the
    tokens the cursor has still before it. *)
Fixpoint read_loop (n : nat) (tokenType : string)
  : M Tokenizer.t (option Token) :=
  Token <- Tokenizer.nextToken ;;
  match n with
  | S n' =>
      if is_hidden Token && type_differs Token tokenType
      then read_loop n' tokenType
      else ret Token
  | 0 => ret Token
  end.

Definition unexpected_token (tokenType got : string) : error :=
  SyntaxError ("Unexpected Token; Expected " ++ dquote ++ tokenType ++ dquote
               ++ ", got " ++ dquote ++ got ++ dquote).

Definition end_of_input : error :=
  SyntaxError "Unexpected End of Input; Cannot read another Token".

(** Run a tokenizer method on the facade's [#Tokenizer]. *)
Definition on_tokenizer {A : Type} (m : M Tokenizer.t A) : M Anatomize A :=
  fun F => let (r, T) := m (tokenizer F) in (r, set_tokenizer T F).

Definition read (tokenType : string) : M Anatomize Token :=
  errorIfNotParsing ;;;
  Token <- (fun F =>
              on_tokenizer
                (read_loop (List.length (Tokenizer.lookaheadBuffer (tokenizer F))
                            - Tokenizer.lookaheadIndex (tokenizer F)) tokenType) F) ;;
  match Token with
  | None => throw end_of_input
  | Some t =>
      if type_differs Token tokenType
      then throw (unexpected_token tokenType (type t))
      else ret t
  end.

(** ** Token types and routines of the guide, used in the examples *)

(** The patterns [/^[cls]/] and [/[cls]/]. *)
Definition re_one (anchored : bool) (cls : ascii -> bool) : RegExp :=
  mkRegExp (fun s =>
    if anchored then
      match s with
      | String c _ => if cls c then Some (0, 1) else None
      | EmptyString => None
      end
    else
      match first_in cls s with
      | Some i => Some (i, 1)
      | None => None
      end).

(** [registerToken('NUMBER', /^\d+/)] *)
Definition NUMBER : TokenType :=
  mkTokenType (Some "NUMBER") (RegExpObj (re_plus true is_digit)) false.

(** [registerToken('WORD', /^[a-z]+/)] *)
Definition WORD : TokenType :=
  mkTokenType (Some "WORD") (RegExpObj (re_plus true is_letter)) false.

(** [registerToken('LETTER', /^[a-z]/)] *)
Definition LETTER : TokenType :=
  mkTokenType (Some "LETTER") (RegExpObj (re_one true is_letter)) false.

(** [registerToken('NUMBER', /\d+/)], the anchor forgotten *)
Definition NUMBER_unanchored : TokenType :=
  mkTokenType (Some "NUMBER") (RegExpObj (re_plus false is_digit)) false.

(** [registerToken(null, /^\s+/)] *)
Definition WHITESPACE : TokenType :=
  mkTokenType None (RegExpObj (re_plus true is_space)) false.

(** [registerToken(';', /^;/)] *)
Definition SEMICOLON : TokenType :=
  mkTokenType (Some ";") (RegExpObj (re_one true (is_char ";"))) false.

(** [registerHiddenToken(';', /^\n+/)] *)
Definition NEWLINE : TokenType :=
  mkTokenType (Some ";") (RegExpObj (re_plus true is_newline)) true.

Definition is_quote (c : option ascii) : bool :=
  match c with
  | Some c => (nat_of_ascii c =? 34) || (nat_of_ascii c =? 39)
  | None => false
  end.

Definition same_char (a b : option ascii) : bool :=
  match a, b with
  | Some a, Some b => Ascii.eqb a b
  | None, None => true
  | _, _ => false
  end.

Definition not_terminated : error :=
  SyntaxError "Literal has not been terminated".

(** The tail of the guide's string routine:
    [if (eof()) throw SyntaxError(...); omit();] *)
Definition string_close : Matcher.routine :=
  Matcher.IsEOF (fun e =>
    if e then Matcher.Raise not_terminated
    else Matcher.OmitChar Matcher.NoConstraint (fun _ =>
           Matcher.Return Matcher.ROther)).

(** Its loop [while (!eof() && peek() !== at(0)) read();] with at most [n]
    rounds. *)
Fixpoint string_body (n : nat) : Matcher.routine :=
  match n with
  | 0 => string_close
  | S n' =>
      Matcher.IsEOF (fun e =>
        if e then string_close
        else Matcher.PeekChar 0 (fun p =>
               Matcher.CharAt 0 (fun a =>
                 if same_char p a then string_close
                 else Matcher.ReadChar Matcher.NoConstraint (fun _ =>
                        string_body n'))))
  end.

(** The guide's string routine: a quote, the text up to the same quote
    (read into the value), the closing quote (omitted). *)
Definition string_routine : Matcher.pattern :=
  fun input =>
    Matcher.PeekChar 0 (fun p =>
      if negb (is_quote p) then Matcher.Return Matcher.ROther
      else Matcher.OmitChar Matcher.NoConstraint (fun _ =>
             string_body (String.length input))).

(** [registerToken('STRING', (read, peek, omit, eof, at, index) => ...)] *)
Definition STRING : TokenType :=
  mkTokenType (Some "STRING") (MatcherObj string_routine) false.

(** A routine that omits one [#] and reads nothing:
    [(read, peek, omit) => { if (peek() === '#') omit(); }] *)
Definition hash_routine : Matcher.pattern :=
  fun _ =>
    Matcher.PeekChar 0 (fun p =>
      if same_char p (Some "#"%char)
      then Matcher.OmitChar Matcher.NoConstraint (fun _ =>
             Matcher.Return Matcher.ROther)
      else Matcher.Return Matcher.ROther).

(** [registerToken('HASH', hash_routine)]: named, but its matches have no
    value. *)
Definition HASH : TokenType :=
  mkTokenType (Some "HASH") (MatcherObj hash_routine) false.

(** A facade on which the given token types were registered, in order. *)
Definition registered (types : list TokenType) : Anatomize :=
  mkAnatomize (Tokenizer.mk types EmptyString 0 [] 0) false.

(** ** Vocabulary of the statements *)

(** What running a routine does to the matcher: the buffer stays, the
    cursor moves forward without leaving the buffer, and the result grows
    by no more characters than the cursor passed. *)
Definition matcher_step_ok (m m' : Matcher.t) : Prop :=
  Matcher.buffer m' = Matcher.buffer m
  /\ Matcher.index m <= Matcher.index m'
  /\ String.length (Matcher.result m') + Matcher.index m
     <= String.length (Matcher.result m) + Matcher.index m'
  /\ (Matcher.index m <= String.length (Matcher.buffer m) ->
      Matcher.index m' <= String.length (Matcher.buffer m)).

(** Characters of the source not yet consumed. *)
Definition remaining (T : Tokenizer.t) : nat :=
  String.length (Tokenizer.buffer T) - Tokenizer.index T.

(** The matcher of [d] runs on [INPUT] without throwing and the loop
    [continue]s. *)
Definition reports_no_match (INPUT : string) (d : TokenType) : Prop :=
  exists v l, Tokenizer.attempt (tmatcher d) INPUT = Ok (v, l)
              /\ Tokenizer.no_match v l = true.

(** The matcher of [d] reports a match with value [v] and length [l]. *)
Definition reports_match (INPUT : string) (d : TokenType)
    (v : option string) (l : nat) : Prop :=
  Tokenizer.attempt (tmatcher d) INPUT = Ok (v, l)
  /\ Tokenizer.no_match v l = false.

(** [T'] is [T] with the source position moved forward; nothing else of
    the tokenizer changed. *)
Definition moved_on (T T' : Tokenizer.t) : Prop :=
  Tokenizer.TokenTypes T' = Tokenizer.TokenTypes T
  /\ Tokenizer.buffer T' = Tokenizer.buffer T
  /\ Tokenizer.lookaheadBuffer T' = Tokenizer.lookaheadBuffer T
  /\ Tokenizer.lookaheadIndex T' = Tokenizer.lookaheadIndex T
  /\ Tokenizer.index T <= Tokenizer.index T'.

(** What a call of [#readToken] leaves: a token with a name and a value,
    after consuming something; or [null] at the end of the source; or an
    exception. *)
Definition readToken_post (T : Tokenizer.t) (r : outcome (option Token))
    (T' : Tokenizer.t) : Prop :=
  moved_on T T'
  /\ match r with
     | Ok (Some t) =>
         Tokenizer.index T < Tokenizer.index T'
         /\ value t <> EmptyString /\ type t <> EmptyString
     | Ok None => Tokenizer.isEOF T' = true
     | Throw _ => True
     end.

(** No token in the buffer has an empty value or an empty type. *)
Definition valued (buf : list (option Token)) : Prop :=
  Forall (fun e => match e with
                   | Some t => value t <> EmptyString /\ type t <> EmptyString
                   | None => True
                   end) buf.

(** What [initialize]'s loop leaves. *)
Definition fill_post (T : Tokenizer.t) (r : outcome unit) (T' : Tokenizer.t)
  : Prop :=
  Tokenizer.TokenTypes T' = Tokenizer.TokenTypes T
  /\ Tokenizer.buffer T' = Tokenizer.buffer T
  /\ Tokenizer.lookaheadIndex T' = Tokenizer.lookaheadIndex T
  /\ valued (Tokenizer.lookaheadBuffer T')
  /\ (r = Ok tt -> Tokenizer.isEOF T' = true).

(** The walk of [peek] from [offset] ends after [k] steps: the [k] slots
    from [offset] on hold hidden tokens and the next one does not. *)
Definition walk_ends (T : Tokenizer.t) (offset : Z) (k : nat) : Prop :=
  (forall j, j < k ->
     is_hidden (Tokenizer.peekToken (offset + Z.of_nat j) T) = true)
  /\ is_hidden (Tokenizer.peekToken (offset + Z.of_nat k) T) = false.

(** The tokenizer after [n] tokens were taken with [nextToken]. *)
Definition consumed (n : nat) (T : Tokenizer.t) : Tokenizer.t :=
  Tokenizer.mk (Tokenizer.TokenTypes T) (Tokenizer.buffer T)
    (Tokenizer.index T) (Tokenizer.lookaheadBuffer T)
    (Tokenizer.lookaheadIndex T + n).

(** Tokens left before the cursor runs off the buffer. *)
Definition ahead (T : Tokenizer.t) : nat :=
  List.length (Tokenizer.lookaheadBuffer T) - Tokenizer.lookaheadIndex T.

(** The tokens [read] skips: hidden ones of another type than asked for. *)
Definition skipped (T : Tokenizer.t) (tokenType : string) (k : nat) : Prop :=
  forall j, j < k ->
    exists h, Tokenizer.peekToken (Z.of_nat j) T = Some h
              /\ hidden h = true /\ type h <> tokenType.

Definition newline : string := String (ascii_of_nat 10) EmptyString.

Definition tok_one : Token := mkToken "NUMBER" "1" false.
Definition tok_two : Token := mkToken "NUMBER" "2" false.
Definition tok_newline : Token := mkToken ";" newline true.

(** The facade as the grammar finds it when [parse] runs on the source
    of a one, a newline and a two, with the read cursor at [cursor]. *)
Definition two_lines (cursor : nat) : Anatomize :=
  mkAnatomize
    (Tokenizer.mk [NUMBER; SEMICOLON; NEWLINE] ("1" ++ newline ++ "2") 3
       [Some tok_one; Some tok_newline; Some tok_two] cursor)
    true.

(** The facade as the grammar finds it when [parse] runs on a lone
    newline. *)
Definition lone_newline : Anatomize :=
  mkAnatomize (Tokenizer.mk [NUMBER; SEMICOLON; NEWLINE] newline 1
                 [Some tok_newline] 0)
    true.

(** A pattern that can only match at the start of its input, as one that
    begins with [^]. *)
Definition anchored (re : RegExp) : Prop :=
  forall s i n, exec re s = Some (i, n) -> i = 0.

(** The tokenizer stopped before the source ["ab12"], with the unanchored
    number pattern registered. *)
Definition before_ab12 : Tokenizer.t :=
  Tokenizer.mk [NUMBER_unanchored] "ab12" 0 [] 0.

(** The tokenizer stopped before the source ["ab"], where the later
    [LETTER] matches as well as [WORD]. *)
Definition before_ab : Tokenizer.t :=
  Tokenizer.mk [WHITESPACE; WORD; LETTER] "ab" 0 [] 0.

(** The source is consumed by discards alone: at each position up to its
    end, the first token type to report a match has no name or matched
    no value. *)
Inductive discardable (types : list TokenType) : string -> Prop :=
| discardable_end : discardable types EmptyString
| discardable_match INPUT pre d post v l :
    types = (pre ++ d :: post)%list ->
    Forall (reports_no_match INPUT) pre ->
    reports_match INPUT d v l ->
    Tokenizer.emitted d v = None ->
    discardable types (slice l INPUT) ->
    discardable types INPUT.

(** What a slot of the buffer holds: a token, or nothing when the slot
    lies outside the buffer or holds [null]. *)
Definition held (x : option (option Token)) : option Token :=
  match x with
  | Some Token => Token
  | None => None
  end.

(** The first token of a stretch of the buffer that is not hidden, as
    long as hidden tokens lead up to it: nothing when the stretch ends,
    or reaches a [null], before one is found. *)
Fixpoint first_visible (buf : list (option Token)) : option Token :=
  match buf with
  | Some t :: rest => if hidden t then first_visible rest else Some t
  | None :: _ => None
  | [] => None
  end.

(** ** Vocabulary of the further properties *)

(** [a] is [b] with some characters left out. *)
Inductive subseq : string -> string -> Prop :=
| subseq_nil : subseq EmptyString EmptyString
| subseq_take c a b : subseq a b -> subseq (String c a) (String c b)
| subseq_drop c a b : subseq a b -> subseq a (String c b).

(** The tokenizer with its source position at [i]. *)
Definition at_index (i : nat) (T : Tokenizer.t) : Tokenizer.t :=
  Tokenizer.mk (Tokenizer.TokenTypes T) (Tokenizer.buffer T) i
    (Tokenizer.lookaheadBuffer T) (Tokenizer.lookaheadIndex T).

(** One call of [#readToken] from source position [i], as a relation: the
    outcome and the position it leaves.  The five ways out of the loop
    over the token types: no type matches; a matcher throws; a match emits
    a token; a discard reaches the end of the source; a discard inside the
    source, after which the call starts over. *)
Inductive reads (types : list TokenType) (source : string)
  : nat -> outcome (option Token) -> nat -> Prop :=
| reads_undefined i :
    Forall (reports_no_match (slice i source)) types ->
    reads types source i (Throw (Tokenizer.undefined_token (slice i source))) i
| reads_throw i pre d post e :
    types = (pre ++ d :: post)%list ->
    Forall (reports_no_match (slice i source)) pre ->
    Tokenizer.attempt (tmatcher d) (slice i source) = Throw e ->
    reads types source i (Throw e) i
| reads_token i pre d post v l t :
    types = (pre ++ d :: post)%list ->
    Forall (reports_no_match (slice i source)) pre ->
    reports_match (slice i source) d v l ->
    Tokenizer.emitted d v = Some t ->
    reads types source i (Ok (Some t)) (i + l)
| reads_end i pre d post v l :
    types = (pre ++ d :: post)%list ->
    Forall (reports_no_match (slice i source)) pre ->
    reports_match (slice i source) d v l ->
    Tokenizer.emitted d v = None ->
    String.length source <= i + l ->
    reads types source i (Ok None) (i + l)
| reads_discard i pre d post v l r j :
    types = (pre ++ d :: post)%list ->
    Forall (reports_no_match (slice i source)) pre ->
    reports_match (slice i source) d v l ->
    Tokenizer.emitted d v = None ->
    i + l < String.length source ->
    reads types source (i + l) r j ->
    reads types source i r j.

(** The loop of [initialize] from source position [i] with the buffer
    [buf], as a relation: the outcome, the position and the buffer it
    leaves. *)
Inductive fills (types : list TokenType) (source : string)
  : nat -> list (option Token) -> outcome unit -> nat -> list (option Token)
    -> Prop :=
| fills_done i buf :
    String.length source <= i ->
    fills types source i buf (Ok tt) i buf
| fills_throw i buf e j :
    i < String.length source ->
    reads types source i (Throw e) j ->
    fills types source i buf (Throw e) j buf
| fills_push i buf Token j r k buf' :
    i < String.length source ->
    reads types source i (Ok Token) j ->
    fills types source j (buf ++ [Token])%list r k buf' ->
    fills types source i buf r k buf'.

(** The buffer holds the tokens [ts], and after them at most one [null]. *)
Definition built (buf : list (option Token)) (ts : list Token) : Prop :=
  buf = map Some ts \/ buf = (map Some ts ++ [None])%list.

Definition visible (t : Token) : bool := negb (hidden t).

(** The tokens left once [read(tokenType)] has skipped what it skips. *)
Fixpoint skip_hidden (tokenType : string) (ts : list Token) : list Token :=
  match ts with
  | t :: ts' =>
      if hidden t && negb (String.eqb (type t) tokenType)
      then skip_hidden tokenType ts'
      else ts
  | [] => []
  end.

(** The facade with its read cursor moved on by [n]. *)
Definition read_on (n : nat) (A : Anatomize) : Anatomize :=
  set_tokenizer (consumed n (tokenizer A)) A.

(** The registration call that puts the token type [d] into the registry. *)
Definition arg_of (m : matcher) : matcher_arg :=
  match m with
  | MatcherObj p => AFunction p
  | RegExpObj re => ARegExp re
  end.

Definition register (d : TokenType) : M Anatomize unit :=
  if thidden d
  then registerHiddenToken (name d) (arg_of (tmatcher d))
  else registerToken (name d) (arg_of (tmatcher d)).

Fixpoint register_all (ds : list TokenType) : M Anatomize unit :=
  match ds with
  | [] => ret tt
  | d :: ds' => register d ;;; register_all ds'
  end.

(** The facade with the token types [ds] added to its registry. *)
Definition with_types (ds : list TokenType) (A : Anatomize) : Anatomize :=
  set_tokenizer
    (Tokenizer.mk (Tokenizer.TokenTypes (tokenizer A) ++ ds)
       (Tokenizer.buffer (tokenizer A)) (Tokenizer.index (tokenizer A))
       (Tokenizer.lookaheadBuffer (tokenizer A))
       (Tokenizer.lookaheadIndex (tokenizer A))) A.

(** A named token type with an anchored fixed pattern. *)
Definition lexical (d : TokenType) : Prop :=
  truthy (name d) = true
  /\ exists re, tmatcher d = RegExpObj re /\ anchored re.

(** The values of the tokens, one after the other. *)
Fixpoint values (ts : list Token) : string :=
  match ts with
  | t :: ts' => value t ++ values ts'
  | [] => EmptyString
  end.

(** *** Version 1.0.0 of [parse] and [read] *)

(** [parse(source)] of v1.0.0: the tokenizer runs before the flag is set,
    and the flag is unset after the main function has returned (no
    [finally]). *)
Definition parse_v1_0_0 {R : Type} (main : M Anatomize R) (source : string)
    (A : Anatomize) : option (outcome R * Anatomize) :=
  match errorIfParsing A with
  | (Throw e, A0) => Some (Throw e, A0)
  | (Ok _, A0) =>
      match Tokenizer.initialize source (tokenizer A0) with
      | None => None
      | Some (Throw e, T) => Some (Throw e, set_tokenizer T A0)
      | Some (Ok _, T) =>
          match main (set_parsing true (set_tokenizer T A0)) with
          | (Ok RESULT, A1) => Some (Ok RESULT, set_parsing false A1)
          | (Throw e, A1) => Some (Throw e, A1)
          end
      end
  end.

(** The loop of [read] of v1.0.0:
    [do { Token = this.#Tokenizer.nextToken(); }
     while (!this.isEOF() && Token?.hidden && Token?.type !== tokenType)] *)
Fixpoint read_loop_v1_0_0 (n : nat) (tokenType : string)
  : M Anatomize (option Token) :=
  Token <- on_tokenizer Tokenizer.nextToken ;;
  eof <- isEOF ;;
  match n with
  | S n' =>
      if negb eof && is_hidden Token && type_differs Token tokenType
      then read_loop_v1_0_0 n' tokenType
      else ret Token
  | 0 => ret Token
  end.

Definition read_v1_0_0 (tokenType : string) : M Anatomize Token :=
  errorIfNotParsing ;;;
  Token <- (fun F => read_loop_v1_0_0 (ahead (tokenizer F)) tokenType F) ;;
  match Token with
  | None => throw end_of_input
  | Some t =>
      if type_differs Token tokenType
      then throw (unexpected_token tokenType (type t))
      else ret t
  end.

(** * Properties *)

(** ** Strings *)

Lemma length_append (a b : string) :
  String.length (a ++ b) = String.length a + String.length b.
Proof.
  induction a as [|c a IH]; simpl; [reflexivity | now rewrite IH].
Qed.

Lemma length_substring_le (s : string) :
  forall n m, String.length (substring n m s) <= m.
Proof.
  induction s as [|c s IH]; intros [|n] [|m]; simpl; try lia.
  - specialize (IH 0 m). lia.
  - apply (IH n 0).
  - apply (IH n (S m)).
Qed.

Lemma length_slice (s : string) :
  forall n, String.length (slice n s) = String.length s - n.
Proof.
  induction s as [|c s IH]; intros [|n]; simpl; auto.
Qed.

Lemma slice_slice (s : string) :
  forall n m, slice m (slice n s) = slice (n + m) s.
Proof.
  induction s as [|c s IH]; intros [|n] m; simpl; auto.
  now destruct m.
Qed.

Lemma truthy_length (v : string) :
  truthy (Some v) = true <-> 1 <= String.length v.
Proof.
  destruct v; simpl; split; intros; try lia; try discriminate; reflexivity.
Qed.

Lemma truthy_nonempty (v : string) :
  truthy (Some v) = true <-> v <> EmptyString.
Proof.
  destruct v; simpl; split; intros; congruence.
Qed.

(** ** The character matcher keeps its cursor inside the input

    The cursor only moves forward, by one per character read or omitted,
    and the result grows by at most the characters the cursor passed. *)

Lemma matcher_step_refl m : matcher_step_ok m m.
Proof. unfold matcher_step_ok; repeat split; auto. Qed.

Lemma matcher_step_trans m1 m2 m3 :
  matcher_step_ok m1 m2 -> matcher_step_ok m2 m3 -> matcher_step_ok m1 m3.
Proof.
  unfold matcher_step_ok.
  intros (B1 & I1 & R1 & L1) (B2 & I2 & R2 & L2).
  rewrite B1 in *. repeat split; try congruence; lia.
Qed.

Lemma readChar_ok c m o m' :
  Matcher.readChar c m = (o, m') -> matcher_step_ok m m'.
Proof.
  unfold Matcher.readChar, bind, Matcher.isEOF, throw.
  destruct (String.length (Matcher.buffer m) <=? Matcher.index m) eqn:E.
  - intros H; inversion H; subst. apply matcher_step_refl.
  - destruct (Matcher.given c && negb (Matcher.constraintCheck (Matcher.current m) c)).
    + intros H; inversion H; subst. apply matcher_step_refl.
    + intros H; inversion H; subst; clear H.
      apply Nat.leb_gt in E.
      unfold matcher_step_ok; simpl. rewrite length_append.
      pose proof (length_substring_le (Matcher.buffer m) (Matcher.index m) 1).
      unfold Matcher.current. repeat split; lia.
Qed.

Lemma omitChar_ok c m o m' :
  Matcher.omitChar c m = (o, m') -> matcher_step_ok m m'.
Proof.
  unfold Matcher.omitChar, bind, Matcher.isEOF, throw.
  destruct (String.length (Matcher.buffer m) <=? Matcher.index m) eqn:E.
  - intros H; inversion H; subst. apply matcher_step_refl.
  - destruct (Matcher.given c && negb (Matcher.constraintCheck (Matcher.current m) c)).
    + intros H; inversion H; subst. apply matcher_step_refl.
    + intros H; inversion H; subst; clear H.
      apply Nat.leb_gt in E.
      unfold matcher_step_ok; simpl. repeat split; lia.
Qed.

Lemma run_ok (r : Matcher.routine) :
  forall m o m', Matcher.run r m = (o, m') -> matcher_step_ok m m'.
Proof.
  induction r as [v|e|c k IH|off k IH|c k IH|k IH|i k IH|k IH];
    simpl; intros m o m' H.
  - inversion H; subst. apply matcher_step_refl.
  - inversion H; subst. apply matcher_step_refl.
  - unfold bind in H. destruct (Matcher.readChar c m) as [[x|e] m1] eqn:E.
    + eapply matcher_step_trans; [eapply readChar_ok; eauto | eapply IH; eauto].
    + inversion H; subst. eapply readChar_ok; eauto.
  - unfold bind, Matcher.peekChar in H. eapply IH; eauto.
  - unfold bind in H. destruct (Matcher.omitChar c m) as [[x|e] m1] eqn:E.
    + eapply matcher_step_trans; [eapply omitChar_ok; eauto | eapply IH; eauto].
    + inversion H; subst. eapply omitChar_ok; eauto.
  - unfold bind, Matcher.isEOF in H. eapply IH; eauto.
  - unfold bind, Matcher.charAt in H. eapply IH; eauto.
  - unfold bind, Matcher.getIndex in H. eapply IH; eauto.
Qed.

(** A value returned by [match] was read character by character: a
    non-null value comes with a positive length, never past the input. *)
Lemma match_ok p input v tokenValue tokenLength :
  Matcher.match_ p input = Ok (v, tokenValue, tokenLength) ->
  (truthy tokenValue = true -> 1 <= tokenLength)
  /\ tokenLength <= String.length input.
Proof.
  unfold Matcher.match_.
  destruct (Matcher.run (p input) (Matcher.mk input 0 EmptyString))
    as [[x|e] m] eqn:E; [|discriminate].
  intros H; injection H as _ Hv Hl. subst tokenValue tokenLength.
  apply run_ok in E. destruct E as (B & I & R & L).
  simpl in I, R, L. split.
  - destruct (Matcher.result m) as [|c s]; simpl; intros H;
      [discriminate H | simpl in R; lia].
  - apply L. lia.
Qed.

(** ** Every accepted match consumes at least one character *)

Lemma attempt_progress m INPUT tokenValue tokenLength :
  Tokenizer.attempt m INPUT = Ok (tokenValue, tokenLength) ->
  Tokenizer.no_match tokenValue tokenLength = false ->
  1 <= tokenLength.
Proof.
  unfold Tokenizer.no_match. intros H N.
  destruct (truthy tokenValue) eqn:T; simpl in N;
    [| apply Nat.ltb_ge in N; exact N].
  destruct m as [p|re]; simpl in H.
  - destruct (Matcher.match_ p INPUT) as [[[v tv] tl]|e] eqn:E; [|discriminate].
    apply match_ok in E. destruct E as [E _].
    destruct v; inversion H; subst; try discriminate. auto.
  - inversion H; subst; clear H.
    destruct (string_match INPUT re) as [v|]; [|discriminate].
    apply truthy_length. exact T.
Qed.

(** ** The token-type loop *)

Lemma moved_on_refl T : moved_on T T.
Proof. unfold moved_on; repeat split; auto. Qed.

Lemma moved_on_advance l T T' :
  moved_on (Tokenizer.advance l T) T' -> moved_on T T'.
Proof.
  unfold moved_on; simpl. intros (H1 & H2 & H3 & H4 & H5).
  repeat split; auto; lia.
Qed.

Lemma emitted_some d v t :
  Tokenizer.emitted d v = Some t ->
  name d = Some (type t) /\ v = Some (value t) /\ hidden t = thidden d
  /\ type t <> EmptyString /\ value t <> EmptyString.
Proof.
  unfold Tokenizer.emitted.
  destruct (name d) as [n|]; [|discriminate].
  destruct v as [v|]; [|discriminate].
  destruct (truthy (Some n)) eqn:Tn; [|discriminate].
  destruct (truthy (Some v)) eqn:Tv; [|discriminate].
  simpl. intros H; inversion H; subst; simpl.
  apply truthy_nonempty in Tn. apply truthy_nonempty in Tv. auto.
Qed.

(** Token types that report no match are passed over. *)
Lemma for_TokenTypes_skip again INPUT T pre rest :
  Forall (reports_no_match INPUT) pre ->
  Tokenizer.for_TokenTypes again INPUT (pre ++ rest)%list T
  = Tokenizer.for_TokenTypes again INPUT rest T.
Proof.
  induction 1 as [|d pre (v & l & A & N) _ IH]; simpl; [reflexivity|].
  rewrite A, N. exact IH.
Qed.

(** The first token type that reports a match decides the call. *)
Lemma for_TokenTypes_first again INPUT T pre d post v l :
  Forall (reports_no_match INPUT) pre ->
  reports_match INPUT d v l ->
  Tokenizer.for_TokenTypes again INPUT (pre ++ d :: post)%list T
  = match Tokenizer.emitted d v with
    | Some Token => Some (Ok (Some Token), Tokenizer.advance l T)
    | None =>
        if Tokenizer.isEOF (Tokenizer.advance l T)
        then Some (Ok None, Tokenizer.advance l T)
        else again (Tokenizer.advance l T)
    end.
Proof.
  intros P [A N]. rewrite for_TokenTypes_skip by exact P.
  simpl. rewrite A, N. reflexivity.
Qed.

Lemma for_TokenTypes_total again fuel INPUT T :
  (forall T1, Tokenizer.isEOF T1 = false -> remaining T1 <= fuel ->
     exists r T1', again T1 = Some (r, T1') /\ readToken_post T1 r T1') ->
  remaining T <= S fuel ->
  forall types,
  exists r T', Tokenizer.for_TokenTypes again INPUT types T = Some (r, T')
               /\ readToken_post T r T'.
Proof.
  intros Hagain Hrem types.
  induction types as [|d types IH]; simpl.
  - eexists _, _; split; [reflexivity|]. split; [apply moved_on_refl | exact I].
  - destruct (Tokenizer.attempt (tmatcher d) INPUT) as [[v l]|e] eqn:A.
    2:{ eexists _, _; split; [reflexivity|].
        split; [apply moved_on_refl | exact I]. }
    destruct (Tokenizer.no_match v l) eqn:N; [exact IH|].
    pose proof (attempt_progress _ _ _ _ A N) as Hl.
    destruct (Tokenizer.emitted d v) as [t|] eqn:E.
    + eexists _, _; split; [reflexivity|].
      apply emitted_some in E. destruct E as (_ & _ & _ & Ht & Hv).
      split; [eapply moved_on_advance, moved_on_refl|].
      simpl. repeat split; auto; lia.
    + destruct (Tokenizer.isEOF (Tokenizer.advance l T)) eqn:EOF.
      * eexists _, _; split; [reflexivity|].
        split; [eapply moved_on_advance, moved_on_refl | exact EOF].
      * destruct (Hagain (Tokenizer.advance l T) EOF) as (r & T' & R & M & P).
        { unfold Tokenizer.isEOF in EOF. apply Nat.leb_gt in EOF.
          unfold remaining in *. simpl in *. lia. }
        exists r, T'. split; [exact R|].
        split; [eapply moved_on_advance; exact M|].
        destruct r as [[t|]|e]; auto.
        simpl in P. destruct P as (P1 & P2 & P3). repeat split; auto; lia.
Qed.

(** [#readToken] returns: called before the end of the source, with a
    chain of recursive calls as long as the rest of the source allows. *)
Lemma readToken_total fuel :
  forall T, Tokenizer.isEOF T = false -> remaining T <= fuel ->
  exists r T', Tokenizer.readToken fuel T = Some (r, T')
               /\ readToken_post T r T'.
Proof.
  induction fuel as [|fuel IH]; intros T EOF Hrem.
  - unfold Tokenizer.isEOF in EOF. apply Nat.leb_gt in EOF.
    unfold remaining in Hrem. lia.
  - simpl. apply for_TokenTypes_total with (fuel := fuel); auto.
Qed.

Lemma fill_total fuel :
  forall T, remaining T < fuel -> valued (Tokenizer.lookaheadBuffer T) ->
  exists r T', Tokenizer.fill fuel T = Some (r, T') /\ fill_post T r T'.
Proof.
  induction fuel as [|fuel IH]; intros T Hrem V; [lia|].
  simpl. destruct (Tokenizer.isEOF T) eqn:EOF.
  - eexists _, _; split; [reflexivity|]. unfold fill_post; auto.
  - destruct (readToken_total fuel T EOF) as (r & T1 & R & M & P); [lia|].
    rewrite R. destruct M as (M1 & M2 & M3 & M4 & M5).
    destruct r as [Token|e].
    + destruct (IH (Tokenizer.push Token T1)) as (r' & T' & F & Q).
      * unfold Tokenizer.isEOF in *. apply Nat.leb_gt in EOF.
        unfold remaining in *. simpl. rewrite M2 in *.
        destruct Token as [t|]; simpl in P.
        -- lia.
        -- apply Nat.leb_le in P. lia.
      * simpl. rewrite M3. apply Forall_app. split; [exact V|].
        constructor; [|constructor].
        destruct Token as [t|]; [|exact I]. simpl in P. tauto.
      * exists r', T'. split; [exact F|].
        destruct Q as (Q1 & Q2 & Q3 & Q4 & Q5). simpl in *.
        unfold fill_post. repeat split; auto; congruence.
    + eexists _, _; split; [reflexivity|].
      unfold fill_post. repeat split; auto; congruence.
Qed.

(** [initialize] returns, for every source and registry. *)
Lemma initialize_total source T :
  exists r T', Tokenizer.initialize source T = Some (r, T')
               /\ Tokenizer.TokenTypes T' = Tokenizer.TokenTypes T
               /\ Tokenizer.buffer T' = source
               /\ Tokenizer.lookaheadIndex T' = 0
               /\ valued (Tokenizer.lookaheadBuffer T').
Proof.
  unfold Tokenizer.initialize.
  destruct (fill_total (S (String.length source))
              (Tokenizer.mk (Tokenizer.TokenTypes T) source 0 [] 0))
    as (r & T' & F & Q1 & Q2 & Q3 & Q4 & _).
  - unfold remaining; simpl. lia.
  - constructor.
  - exists r, T'. simpl in *. auto.
Qed.

(** ** Peeking *)

Lemma array_get_in_range {A : Type} (a : list A) (i : Z) (x : A) :
  array_get a i = Some x -> (0 <= i < Z.of_nat (List.length a))%Z.
Proof.
  unfold array_get. destruct (i <? 0)%Z eqn:E; [discriminate|].
  intros H. apply Z.ltb_ge in E.
  assert (Z.to_nat i < List.length a) by (apply nth_error_Some; congruence).
  lia.
Qed.

Lemma hidden_in_range T offset :
  is_hidden (Tokenizer.peekToken offset T) = true ->
  (0 <= Z.of_nat (Tokenizer.lookaheadIndex T) + offset
     < Z.of_nat (List.length (Tokenizer.lookaheadBuffer T)))%Z.
Proof.
  unfold Tokenizer.peekToken.
  destruct (array_get _ _) as [x|] eqn:E; [|discriminate].
  intros _. eapply array_get_in_range; eauto.
Qed.

Lemma out_of_range_not_hidden T offset :
  (Z.of_nat (Tokenizer.lookaheadIndex T) + offset < 0
   \/ Z.of_nat (List.length (Tokenizer.lookaheadBuffer T))
      <= Z.of_nat (Tokenizer.lookaheadIndex T) + offset)%Z ->
  is_hidden (Tokenizer.peekToken offset T) = false.
Proof.
  intros H. destruct (is_hidden (Tokenizer.peekToken offset T)) eqn:E; auto.
  apply hidden_in_range in E. lia.
Qed.

Lemma walk_ends_step T offset k :
  is_hidden (Tokenizer.peekToken offset T) = true ->
  walk_ends T (offset + 1) k -> walk_ends T offset (S k).
Proof.
  intros H [W1 W2]. split.
  - intros [|j] Hj.
    + now rewrite Z.add_0_r.
    + replace (offset + Z.of_nat (S j))%Z with (offset + 1 + Z.of_nat j)%Z
        by lia.
      apply W1. lia.
  - replace (offset + Z.of_nat (S k))%Z with (offset + 1 + Z.of_nat k)%Z
      by lia.
    exact W2.
Qed.

Lemma walk_ends_unique T offset k1 k2 :
  walk_ends T offset k1 -> walk_ends T offset k2 -> k1 = k2.
Proof.
  intros [A1 B1] [A2 B2].
  destruct (Nat.lt_trichotomy k1 k2) as [L|[E|L]]; auto.
  - rewrite (A2 k1 L) in B1. discriminate.
  - rewrite (A1 k2 L) in B2. discriminate.
Qed.

(** The loop of [peek] returns the token at the end of its walk; the
    bound [n] is enough once it covers the slots up to the buffer's end. *)
Lemma peek_loop_walk n :
  forall offset T,
  (Z.of_nat (List.length (Tokenizer.lookaheadBuffer T))
   - (Z.of_nat (Tokenizer.lookaheadIndex T) + offset) <= Z.of_nat n)%Z ->
  exists k, walk_ends T offset k
            /\ peek_loop n offset T
               = Tokenizer.peekToken (offset + Z.of_nat k) T.
Proof.
  induction n as [|n IH]; intros offset T Hn; simpl.
  - exists 0. rewrite Z.add_0_r. split; [|reflexivity].
    split; [intros j Hj; lia|]. rewrite Z.add_0_r.
    apply out_of_range_not_hidden. lia.
  - destruct (is_hidden (Tokenizer.peekToken offset T)) eqn:E.
    + destruct (IH (offset + 1)%Z T) as (k & W & P); [lia|].
      exists (S k). split; [apply walk_ends_step; auto|].
      rewrite P. f_equal. lia.
    + exists 0. rewrite Z.add_0_r. split; [|reflexivity].
      split; [intros j Hj; lia|]. now rewrite Z.add_0_r.
Qed.

Lemma walk_exists T offset : exists k, walk_ends T offset k.
Proof.
  destruct (Z_lt_le_dec (Z.of_nat (Tokenizer.lookaheadIndex T) + offset) 0)
    as [L|L].
  - exists 0. split; [intros j Hj; lia|]. rewrite Z.add_0_r.
    apply out_of_range_not_hidden. lia.
  - destruct (peek_loop_walk (List.length (Tokenizer.lookaheadBuffer T))
                offset T) as (k & W & _); [lia|]. eauto.
Qed.

(** [peek] returns what lies at the end of its walk and changes nothing. *)
Lemma peek_at_walk_end A offset k :
  parsing A = true ->
  walk_ends (tokenizer A) offset k ->
  peek offset A
  = (Ok (Tokenizer.peekToken (offset + Z.of_nat k) (tokenizer A)), A).
Proof.
  intros P W. unfold peek, bind, errorIfNotParsing. rewrite P. simpl.
  assert (peek_loop (List.length (Tokenizer.lookaheadBuffer (tokenizer A)))
            offset (tokenizer A)
          = Tokenizer.peekToken (offset + Z.of_nat k) (tokenizer A)) as E.
  { destruct (Z_lt_le_dec
                (Z.of_nat (Tokenizer.lookaheadIndex (tokenizer A)) + offset) 0)
      as [L|L].
    - assert (k = 0) as ->.
      { apply (walk_ends_unique (tokenizer A) offset); auto.
        split; [intros j Hj; lia|]. rewrite Z.add_0_r.
        apply out_of_range_not_hidden. lia. }
      rewrite Z.add_0_r.
      destruct (List.length (Tokenizer.lookaheadBuffer (tokenizer A)));
        simpl; auto.
      rewrite out_of_range_not_hidden by lia. reflexivity.
    - destruct (peek_loop_walk
                  (List.length (Tokenizer.lookaheadBuffer (tokenizer A)))
                  offset (tokenizer A)) as (k' & W' & E); [lia|].
      rewrite E. now rewrite (walk_ends_unique _ _ _ _ W W'). }
  rewrite E. destruct W as [_ W]. rewrite W. reflexivity.
Qed.

(** ** Reading *)

Lemma consumed_0 T : consumed 0 T = T.
Proof. destruct T; unfold consumed; simpl. now rewrite Nat.add_0_r. Qed.

Lemma consumed_consumed n m T : consumed n (consumed m T) = consumed (m + n) T.
Proof. unfold consumed; simpl. now rewrite Nat.add_assoc. Qed.

Lemma peekToken_nth T (x : option Token) :
  nth_error (Tokenizer.lookaheadBuffer T) (Tokenizer.lookaheadIndex T) = Some x ->
  Tokenizer.peekToken 0 T = x.
Proof.
  unfold Tokenizer.peekToken, array_get. intros H.
  rewrite Z.add_0_r.
  destruct (Z.of_nat (Tokenizer.lookaheadIndex T) <? 0)%Z eqn:E;
    [apply Z.ltb_lt in E; lia|].
  rewrite Nat2Z.id, H. reflexivity.
Qed.

Lemma peekToken_some T offset t :
  Tokenizer.peekToken offset T = Some t ->
  exists i, (Z.of_nat i = Z.of_nat (Tokenizer.lookaheadIndex T) + offset)%Z
            /\ nth_error (Tokenizer.lookaheadBuffer T) i = Some (Some t).
Proof.
  unfold Tokenizer.peekToken, array_get.
  destruct (Z.of_nat (Tokenizer.lookaheadIndex T) + offset <? 0)%Z eqn:E;
    [discriminate|].
  apply Z.ltb_ge in E.
  destruct (nth_error _ _) as [[x|]|] eqn:N; try discriminate.
  intros H; inversion H; subst.
  exists (Z.to_nat (Z.of_nat (Tokenizer.lookaheadIndex T) + offset)).
  split; [lia | exact N].
Qed.

Lemma peekToken_consumed n T offset :
  Tokenizer.peekToken offset (consumed n T)
  = Tokenizer.peekToken (offset + Z.of_nat n) T.
Proof.
  unfold Tokenizer.peekToken, consumed; simpl.
  replace (Z.of_nat (Tokenizer.lookaheadIndex T + n) + offset)%Z
    with (Z.of_nat (Tokenizer.lookaheadIndex T) + (offset + Z.of_nat n))%Z
    by lia.
  reflexivity.
Qed.

(** [nextToken] on a cursor inside the buffer, and past its end. *)
Lemma nextToken_inside T :
  Tokenizer.lookaheadIndex T < List.length (Tokenizer.lookaheadBuffer T) ->
  Tokenizer.nextToken T = (Ok (Tokenizer.peekToken 0 T), consumed 1 T).
Proof.
  intros H. unfold Tokenizer.nextToken.
  replace (List.length (Tokenizer.lookaheadBuffer T)
           <=? Tokenizer.lookaheadIndex T) with false
    by (symmetry; apply Nat.leb_gt; exact H).
  destruct (nth_error (Tokenizer.lookaheadBuffer T) (Tokenizer.lookaheadIndex T))
    as [x|] eqn:N.
  - rewrite (peekToken_nth T x N). unfold consumed.
    now rewrite Nat.add_1_r.
  - apply nth_error_None in N. lia.
Qed.

Lemma nextToken_outside T :
  List.length (Tokenizer.lookaheadBuffer T) <= Tokenizer.lookaheadIndex T ->
  Tokenizer.nextToken T = (Ok None, T).
Proof.
  intros H. unfold Tokenizer.nextToken.
  replace (List.length (Tokenizer.lookaheadBuffer T)
           <=? Tokenizer.lookaheadIndex T) with true
    by (symmetry; apply Nat.leb_le; exact H).
  reflexivity.
Qed.

(** [read] as the facade runs it on a facade that is parsing. *)
Lemma read_unfold A tokenType :
  parsing A = true ->
  read tokenType A
  = match read_loop (ahead (tokenizer A)) tokenType (tokenizer A) with
    | (Ok None, T) => (Throw end_of_input, set_tokenizer T A)
    | (Ok (Some t), T) =>
        if negb (String.eqb (type t) tokenType)
        then (Throw (unexpected_token tokenType (type t)), set_tokenizer T A)
        else (Ok t, set_tokenizer T A)
    | (Throw e, T) => (Throw e, set_tokenizer T A)
    end.
Proof.
  intros P. unfold read, bind, errorIfNotParsing, on_tokenizer, ahead.
  rewrite P. simpl.
  destruct (read_loop _ tokenType (tokenizer A)) as [[[t|]|e] T]; simpl; auto.
  destruct (negb (String.eqb (type t) tokenType)); reflexivity.
Qed.

Lemma ahead_inside T :
  Tokenizer.lookaheadIndex T < List.length (Tokenizer.lookaheadBuffer T) ->
  ahead T = S (ahead (consumed 1 T)).
Proof. unfold ahead, consumed; simpl. lia. Qed.

(** One round of the loop of [read], on a cursor inside the buffer. *)
Lemma read_loop_step T tokenType :
  Tokenizer.lookaheadIndex T < List.length (Tokenizer.lookaheadBuffer T) ->
  read_loop (ahead T) tokenType T
  = if is_hidden (Tokenizer.peekToken 0 T)
       && type_differs (Tokenizer.peekToken 0 T) tokenType
    then read_loop (ahead (consumed 1 T)) tokenType (consumed 1 T)
    else (Ok (Tokenizer.peekToken 0 T), consumed 1 T).
Proof.
  intros H. rewrite (ahead_inside T H). simpl. unfold bind at 1.
  rewrite (nextToken_inside T H).
  destruct (is_hidden (Tokenizer.peekToken 0 T)
            && type_differs (Tokenizer.peekToken 0 T) tokenType); reflexivity.
Qed.

Lemma read_loop_end T tokenType :
  List.length (Tokenizer.lookaheadBuffer T) <= Tokenizer.lookaheadIndex T ->
  read_loop (ahead T) tokenType T = (Ok None, T).
Proof.
  intros H. unfold ahead.
  replace (List.length (Tokenizer.lookaheadBuffer T) - Tokenizer.lookaheadIndex T)
    with 0 by lia.
  simpl. unfold bind. rewrite (nextToken_outside T H). reflexivity.
Qed.

Lemma skipped_step T tokenType k h :
  Tokenizer.peekToken 0 T = Some h -> hidden h = true -> type h <> tokenType ->
  skipped (consumed 1 T) tokenType k -> skipped T tokenType (S k).
Proof.
  intros H0 Hh Ht S1 [|j] Hj.
  - exists h. auto.
  - destruct (S1 j) as (h' & P & Q); [lia|]. exists h'. split; auto.
    rewrite peekToken_consumed in P.
    replace (Z.of_nat (S j)) with (Z.of_nat j + Z.of_nat 1)%Z by lia.
    exact P.
Qed.

(** The loop of [read] skips a run of hidden tokens of other types and
    stops at the first slot that is not one: the end of the buffer, a
    [null], or a token that is visible or of the type asked for. *)
Lemma read_loop_walk tokenType n :
  forall T, ahead T = n ->
  exists k, skipped T tokenType k
    /\ ((Tokenizer.peekToken (Z.of_nat k) T = None
         /\ exists T', read_loop n tokenType T = (Ok None, T')
                       /\ (T' = consumed k T \/ T' = consumed (S k) T))
        \/ (exists t, Tokenizer.peekToken (Z.of_nat k) T = Some t
              /\ hidden t && negb (String.eqb (type t) tokenType) = false
              /\ read_loop n tokenType T = (Ok (Some t), consumed (S k) T))).
Proof.
  induction n as [|n IH]; intros T Hn.
  - exists 0. split; [intros j Hj; lia|]. left.
    assert (List.length (Tokenizer.lookaheadBuffer T)
            <= Tokenizer.lookaheadIndex T) as H by (unfold ahead in Hn; lia).
    split.
    + unfold Tokenizer.peekToken, array_get. simpl. rewrite Z.add_0_r.
      destruct (Z.of_nat (Tokenizer.lookaheadIndex T) <? 0)%Z; auto.
      rewrite Nat2Z.id.
      replace (nth_error (Tokenizer.lookaheadBuffer T) (Tokenizer.lookaheadIndex T))
        with (@None (option Token)); auto.
      symmetry. apply nth_error_None. exact H.
    + exists T. split.
      * rewrite <- Hn. apply read_loop_end. exact H.
      * left. symmetry. apply consumed_0.
  - assert (Tokenizer.lookaheadIndex T
            < List.length (Tokenizer.lookaheadBuffer T)) as H
      by (unfold ahead in Hn; lia).
    rewrite <- Hn, (read_loop_step T tokenType H).
    destruct (Tokenizer.peekToken 0 T) as [t|] eqn:P0; simpl.
    + destruct (hidden t && negb (String.eqb (type t) tokenType)) eqn:C.
      * apply andb_true_iff in C. destruct C as [Ch Ct].
        apply negb_true_iff, String.eqb_neq in Ct.
        destruct (IH (consumed 1 T)) as (k & S1 & R).
        { rewrite (ahead_inside T H) in Hn. lia. }
        exists (S k). split; [eapply skipped_step; eauto|].
        rewrite (ahead_inside T H) in Hn. injection Hn as Hn.
        rewrite Hn.
        rewrite peekToken_consumed in R. rewrite !consumed_consumed in R.
        replace (Z.of_nat (S k)) with (Z.of_nat k + Z.of_nat 1)%Z by lia.
        exact R.
      * exists 0. split; [intros j Hj; lia|]. right. exists t. auto.
    + exists 0. split; [intros j Hj; lia|]. left. split; auto.
      exists (consumed 1 T). auto.
Qed.

Lemma append_inv_head (a x y : string) : a ++ x = a ++ y -> x = y.
Proof.
  induction a as [|c a IH]; simpl; intros H; [exact H|].
  injection H as H. auto.
Qed.

Lemma append_inv_tail (c : ascii) (x : string) :
  forall y, x ++ String c EmptyString = y ++ String c EmptyString -> x = y.
Proof.
  induction x as [|a x IH]; intros [|b y]; simpl; intros H; auto.
  - injection H as _ H. destruct y; discriminate.
  - injection H as _ H. destruct x; discriminate.
  - injection H as -> H. f_equal. auto.
Qed.

(** The message of the wrong-token error names the token's type. *)
Lemma unexpected_token_inj tokenType got got' :
  unexpected_token tokenType got = unexpected_token tokenType got' ->
  got = got'.
Proof.
  unfold unexpected_token, dquote. simpl. intros H. injection H as H.
  apply append_inv_head in H. simpl in H. injection H as H.
  eapply append_inv_tail. exact H.
Qed.

(** ** The concrete buffers are what [initialize] builds *)

Example two_lines_tokenized :
  Tokenizer.initialize ("1" ++ newline ++ "2")
    (tokenizer (registered [NUMBER; SEMICOLON; NEWLINE]))
  = Some (Ok tt, tokenizer (two_lines 0)).
Proof. reflexivity. Qed.

Example lone_newline_tokenized :
  Tokenizer.initialize newline
    (tokenizer (registered [NUMBER; SEMICOLON; NEWLINE]))
  = Some (Ok tt, tokenizer lone_newline).
Proof. reflexivity. Qed.

(** ** Hidden tokens and [peek] *)

Lemma peek_none A offset :
  parsing A = true ->
  (forall (j : nat) t,
     Tokenizer.peekToken (offset + Z.of_nat j) (tokenizer A) = Some t ->
     hidden t = true) ->
  peek offset A = (Ok None, A).
Proof.
  intros P H. destruct (walk_exists (tokenizer A) offset) as [k W].
  rewrite (peek_at_walk_end A offset k P W).
  destruct (Tokenizer.peekToken (offset + Z.of_nat k) (tokenizer A))
    as [t|] eqn:E; auto.
  destruct W as [_ W]. rewrite E in W. simpl in W.
  rewrite (H k t E) in W. discriminate.
Qed.

(** What [peekToken] returns, on the buffer itself. *)
Lemma peekToken_slot T offset (j : nat) :
  (0 <= Z.of_nat (Tokenizer.lookaheadIndex T) + offset)%Z ->
  Tokenizer.peekToken (offset + Z.of_nat j) T
  = held (nth_error
            (skipn (Z.to_nat (Z.of_nat (Tokenizer.lookaheadIndex T) + offset))
               (Tokenizer.lookaheadBuffer T)) j).
Proof.
  intros H. unfold Tokenizer.peekToken, array_get, held.
  replace (Z.of_nat (Tokenizer.lookaheadIndex T) + (offset + Z.of_nat j) <? 0)%Z
    with false by (symmetry; apply Z.ltb_ge; lia).
  rewrite nth_error_skipn.
  replace (Z.to_nat (Z.of_nat (Tokenizer.lookaheadIndex T)
                     + (offset + Z.of_nat j)))
    with (Z.to_nat (Z.of_nat (Tokenizer.lookaheadIndex T) + offset) + j)
    by lia.
  reflexivity.
Qed.

Lemma peekToken_before_buffer T offset :
  (Z.of_nat (Tokenizer.lookaheadIndex T) + offset < 0)%Z ->
  Tokenizer.peekToken offset T = None.
Proof.
  intros H. unfold Tokenizer.peekToken, array_get.
  replace (Z.of_nat (Tokenizer.lookaheadIndex T) + offset <? 0)%Z with true
    by (symmetry; apply Z.ltb_lt; exact H).
  reflexivity.
Qed.

(** In a stretch of the buffer, the first visible token comes after a
    run of hidden ones. *)
Lemma first_visible_run (l : list (option Token)) :
  exists k,
    (forall j, j < k -> is_hidden (held (nth_error l j)) = true)
    /\ is_hidden (held (nth_error l k)) = false
    /\ held (nth_error l k) = first_visible l.
Proof.
  induction l as [|[t|] l (k & H1 & H2 & H3)].
  - exists 0. repeat split. intros j Hj; lia.
  - destruct (hidden t) eqn:Ht.
    + exists (S k). simpl. rewrite Ht. repeat split; auto.
      intros [|j] Hj; [exact Ht | apply H1; lia].
    + exists 0. simpl. rewrite Ht. repeat split; auto. intros j Hj; lia.
  - exists 0. repeat split. intros j Hj; lia.
Qed.

(** [peek], on the buffer itself. *)
Lemma peek_on_buffer A offset :
  parsing A = true ->
  peek offset A
  = (Ok (if (Z.of_nat (Tokenizer.lookaheadIndex (tokenizer A)) + offset <? 0)%Z
         then None
         else first_visible
                (skipn (Z.to_nat
                          (Z.of_nat (Tokenizer.lookaheadIndex (tokenizer A))
                           + offset))
                   (Tokenizer.lookaheadBuffer (tokenizer A)))), A).
Proof.
  intros P.
  destruct (Z.of_nat (Tokenizer.lookaheadIndex (tokenizer A)) + offset <? 0)%Z
    eqn:N.
  - apply Z.ltb_lt in N.
    rewrite (peek_at_walk_end A offset 0 P).
    + rewrite Z.add_0_r, peekToken_before_buffer by exact N. reflexivity.
    + split; [intros j Hj; lia|]. rewrite Z.add_0_r.
      apply out_of_range_not_hidden. lia.
  - apply Z.ltb_ge in N.
    destruct (first_visible_run
                (skipn (Z.to_nat
                          (Z.of_nat (Tokenizer.lookaheadIndex (tokenizer A))
                           + offset))
                   (Tokenizer.lookaheadBuffer (tokenizer A))))
      as (k & H1 & H2 & H3).
    rewrite (peek_at_walk_end A offset k P).
    + rewrite (peekToken_slot _ _ _ N), H3. reflexivity.
    + split.
      * intros j Hj. rewrite (peekToken_slot _ _ _ N). apply H1. exact Hj.
      * rewrite (peekToken_slot _ _ _ N). exact H2.
Qed.

(** C3.  While parsing, [peek(offset)] changes nothing on the facade and
    never returns a hidden token.  Its result is read off the lookahead
    buffer: from the slot [offset] places after the read cursor it passes
    over the hidden tokens that lie there one after the other and returns
    the first token that is not hidden, or nothing when the buffer ends
    (or holds [null]) before one is found; a slot before the start of the
    buffer holds nothing.  It returns nothing when only hidden tokens, or
    nothing, lie from [offset] on. *)
Theorem peek_looks_through_hidden (A : Anatomize) (offset : Z) :
  parsing A = true ->
  exists r k,
    peek offset A = (Ok r, A)
    /\ r = (if (Z.of_nat (Tokenizer.lookaheadIndex (tokenizer A)) + offset
                <? 0)%Z
            then None
            else first_visible
                   (skipn (Z.to_nat
                             (Z.of_nat (Tokenizer.lookaheadIndex (tokenizer A))
                              + offset))
                      (Tokenizer.lookaheadBuffer (tokenizer A))))
    /\ (forall t, r = Some t ->
          hidden t = false
          /\ In (Some t) (Tokenizer.lookaheadBuffer (tokenizer A)))
    /\ walk_ends (tokenizer A) offset k
    /\ r = Tokenizer.peekToken (offset + Z.of_nat k) (tokenizer A)
    /\ ((forall (j : nat) t,
           Tokenizer.peekToken (offset + Z.of_nat j) (tokenizer A) = Some t ->
           hidden t = true) -> r = None).
Proof.
  intros P. destruct (walk_exists (tokenizer A) offset) as [k W].
  exists (Tokenizer.peekToken (offset + Z.of_nat k) (tokenizer A)), k.
  pose proof (peek_at_walk_end A offset k P W) as E.
  split; [exact E|].
  split; [pose proof (peek_on_buffer A offset P) as B; congruence|].
  split; [|split; [exact W|split; [reflexivity|]]].
  - intros t Et. split.
    + destruct W as [_ W]. rewrite Et in W. exact W.
    + apply peekToken_some in Et. destruct Et as (i & _ & N).
      eapply nth_error_In; eauto.
  - intros H.
    pose proof (peek_none A offset P H) as N.
    rewrite E in N. congruence.
Qed.

Lemma peek_looks_through_hidden_witness :
  peek 0 (two_lines 1) = (Ok (Some tok_two), two_lines 1)
  /\ peek 0 (two_lines 0) = (Ok (Some tok_one), two_lines 0)
  /\ peek 1 (two_lines 0) = (Ok (Some tok_two), two_lines 0)
  /\ peek 3 (two_lines 0) = (Ok None, two_lines 0).
Proof.
  destruct (peek_looks_through_hidden (two_lines 1) 0 eq_refl)
    as (r1 & k1 & H1 & R1 & _).
  destruct (peek_looks_through_hidden (two_lines 0) 0 eq_refl)
    as (r2 & k2 & H2 & R2 & _).
  destruct (peek_looks_through_hidden (two_lines 0) 1 eq_refl)
    as (r3 & k3 & H3 & R3 & _).
  destruct (peek_looks_through_hidden (two_lines 0) 3 eq_refl)
    as (r4 & k4 & H4 & R4 & _).
  rewrite H1, R1, H2, R2, H3, R3, H4, R4. repeat split.
Defined.

Example peek_past_newline :
  peek 0 (two_lines 1) = (Ok (Some tok_two), two_lines 1).
Proof. reflexivity. Qed.

(** An offset before the cursor reaches a token already read, and a slot
    before the start of the buffer holds nothing. *)
Example peek_before_cursor :
  peek (-1) (two_lines 1) = (Ok (Some tok_one), two_lines 1)
  /\ peek (-1) (two_lines 0) = (Ok None, two_lines 0).
Proof. split; reflexivity. Qed.

(** C10, as amended.  The offset of [peek] counts slots of the raw
    buffer: when the slot at offset [k] holds a hidden token, [peek(k)]
    and [peek(k + 1)] give the same result, and when the run of hidden
    tokens from [k] on is followed by a token [v], both return [v], which
    is not hidden. *)
Theorem hidden_slot_shares_successor (A : Anatomize) (k : Z) (h : Token) :
  parsing A = true ->
  Tokenizer.peekToken k (tokenizer A) = Some h ->
  hidden h = true ->
  k <> (k + 1)%Z
  /\ peek k A = peek (k + 1) A
  /\ forall (j : nat) (v : Token),
       walk_ends (tokenizer A) k j ->
       Tokenizer.peekToken (k + Z.of_nat j) (tokenizer A) = Some v ->
       hidden v = false
       /\ peek k A = (Ok (Some v), A)
       /\ peek (k + 1) A = (Ok (Some v), A).
Proof.
  intros P Hk Hh.
  assert (is_hidden (Tokenizer.peekToken k (tokenizer A)) = true) as Hid
    by (rewrite Hk; exact Hh).
  assert (peek k A = peek (k + 1) A) as Same.
  { destruct (walk_exists (tokenizer A) (k + 1)) as [j W].
    rewrite (peek_at_walk_end A (k + 1) j P W).
    rewrite (peek_at_walk_end A k (S j) P (walk_ends_step _ _ _ Hid W)).
    do 2 f_equal. f_equal. lia. }
  split; [lia|]. split; [exact Same|].
  intros j v W Hv.
  assert (peek k A = (Ok (Some v), A)) as E
    by (rewrite (peek_at_walk_end A k j P W), Hv; reflexivity).
  split; [|split; [exact E | rewrite <- Same; exact E]].
  destruct W as [_ W]. rewrite Hv in W. exact W.
Qed.

Lemma hidden_slot_shares_successor_witness :
  (1 <> 1 + 1)%Z
  /\ peek 1 (two_lines 0) = peek (1 + 1) (two_lines 0)
  /\ forall (j : nat) (v : Token),
       walk_ends (tokenizer (two_lines 0)) 1 j ->
       Tokenizer.peekToken (1 + Z.of_nat j) (tokenizer (two_lines 0)) = Some v ->
       hidden v = false
       /\ peek 1 (two_lines 0) = (Ok (Some v), two_lines 0)
       /\ peek (1 + 1) (two_lines 0) = (Ok (Some v), two_lines 0).
Proof.
  apply (hidden_slot_shares_successor (two_lines 0) 1 tok_newline);
    reflexivity.
Defined.

(** C10, as stated, fails on the buffer of a lone newline: a hidden token
    lies at the read cursor, yet no offset makes [peek] return a token, so
    no two offsets return the same one. *)
Lemma lone_hidden_token_never_peeked :
  parsing lone_newline = true
  /\ Tokenizer.peekToken 0 (tokenizer lone_newline) = Some tok_newline
  /\ hidden tok_newline = true
  /\ ~ exists (k k' : Z) (t : Token),
         k <> k'
         /\ peek k lone_newline = (Ok (Some t), lone_newline)
         /\ peek k' lone_newline = (Ok (Some t), lone_newline).
Proof.
  repeat split.
  intros (k & k' & t & _ & H & _).
  rewrite peek_none in H; [discriminate | reflexivity |].
  intros j t' E. apply peekToken_some in E. destruct E as (i & _ & E).
  destruct i as [|[|i]]; simpl in E; try discriminate.
  injection E as <-. reflexivity.
Qed.

(** ** Hidden tokens and [read] *)

(** [read] when no token is left at the cursor. *)
Lemma read_at_end A tokenType :
  parsing A = true ->
  Tokenizer.peekToken 0 (tokenizer A) = None ->
  exists A', read tokenType A = (Throw end_of_input, A').
Proof.
  intros P H. rewrite (read_unfold A tokenType P).
  destruct (le_lt_dec (List.length (Tokenizer.lookaheadBuffer (tokenizer A)))
              (Tokenizer.lookaheadIndex (tokenizer A))) as [L|L].
  - rewrite read_loop_end by exact L. eauto.
  - rewrite read_loop_step by exact L. rewrite H. simpl. eauto.
Qed.

(** C4.  While parsing, with a token [t] at the read cursor, [read(T)]
    consumes [t]; it goes on to the next token exactly when [t] is hidden
    and of another type than [T], else it returns [t] if its type is [T]
    and throws the wrong-token error if not.  So a hidden token of type
    [T] is consumed and returned, and a hidden token of another type is
    consumed silently. *)
Theorem read_skips_hidden_of_other_type
    (A : Anatomize) (tokenType : string) (t : Token) :
  parsing A = true ->
  Tokenizer.peekToken 0 (tokenizer A) = Some t ->
  let A' := set_tokenizer (consumed 1 (tokenizer A)) A in
  read tokenType A
  = (if hidden t && negb (String.eqb (type t) tokenType)
     then read tokenType A'
     else if negb (String.eqb (type t) tokenType)
          then (Throw (unexpected_token tokenType (type t)), A')
          else (Ok t, A'))
  /\ (hidden t = true -> type t = tokenType ->
      read tokenType A = (Ok t, A'))
  /\ (hidden t = true -> type t <> tokenType ->
      read tokenType A = read tokenType A').
Proof.
  intros P H A'.
  assert (Tokenizer.lookaheadIndex (tokenizer A)
          < List.length (Tokenizer.lookaheadBuffer (tokenizer A))) as L.
  { apply peekToken_some in H. destruct H as (i & Hi & N).
    assert (i < List.length (Tokenizer.lookaheadBuffer (tokenizer A)))
      by (apply nth_error_Some; congruence).
    lia. }
  assert (read tokenType A
          = (if hidden t && negb (String.eqb (type t) tokenType)
             then read tokenType A'
             else if negb (String.eqb (type t) tokenType)
                  then (Throw (unexpected_token tokenType (type t)), A')
                  else (Ok t, A'))) as E.
  { rewrite (read_unfold A tokenType P), (read_loop_step _ _ L), H. simpl.
    destruct (hidden t && negb (String.eqb (type t) tokenType)); auto.
    rewrite (read_unfold A' tokenType P). reflexivity. }
  split; [exact E|]. split.
  - intros Hh Ht. rewrite E. apply String.eqb_eq in Ht. rewrite Ht.
    rewrite andb_false_r. reflexivity.
  - intros Hh Ht. rewrite E. apply String.eqb_neq in Ht. rewrite Ht, Hh.
    reflexivity.
Qed.

Lemma read_skips_hidden_of_other_type_witness :
  read "NUMBER" (two_lines 1) = (Ok tok_two, two_lines 3)
  /\ read ";" (two_lines 1) = (Ok tok_newline, two_lines 2).
Proof.
  pose proof (read_skips_hidden_of_other_type (two_lines 1) "NUMBER"
                tok_newline eq_refl eq_refl) as [H _].
  pose proof (read_skips_hidden_of_other_type (two_lines 1) ";"
                tok_newline eq_refl eq_refl) as [_ [G _]].
  split; [rewrite H; reflexivity | apply G; reflexivity].
Defined.

(** C9.  When [read(T)] throws the wrong-token error, the facade it
    leaves has the read cursor past the token it stopped at (visible, of
    another type than [T], named in the message) and past the hidden
    tokens it skipped before: what [peek] and [read] see next starts
    after them. *)
Theorem failed_read_consumes (A A' : Anatomize) (tokenType got : string) :
  read tokenType A = (Throw (unexpected_token tokenType got), A') ->
  exists (k : nat) (t : Token),
    skipped (tokenizer A) tokenType k
    /\ Tokenizer.peekToken (Z.of_nat k) (tokenizer A) = Some t
    /\ hidden t = false /\ type t = got /\ got <> tokenType
    /\ A' = set_tokenizer (consumed (S k) (tokenizer A)) A
    /\ Tokenizer.lookaheadIndex (tokenizer A')
       = Tokenizer.lookaheadIndex (tokenizer A) + S k
    /\ forall offset,
         Tokenizer.peekToken offset (tokenizer A')
         = Tokenizer.peekToken (offset + Z.of_nat (S k)) (tokenizer A).
Proof.
  intros H. destruct (parsing A) eqn:P.
  2:{ unfold read, bind, errorIfNotParsing in H. rewrite P in H. simpl in H.
      injection H as H _. unfold only_whilst_parsing, unexpected_token in H.
      simpl in H. discriminate. }
  rewrite (read_unfold A tokenType P) in H.
  destruct (read_loop_walk tokenType (ahead (tokenizer A)) (tokenizer A)
              eq_refl) as (k & S & [(_ & T' & R & _)|(t & Pk & C & R)]);
    rewrite R in H.
  - injection H as H _. unfold end_of_input, unexpected_token in H.
    simpl in H. discriminate.
  - destruct (negb (String.eqb (type t) tokenType)) eqn:D; [|discriminate].
    assert (unexpected_token tokenType (type t)
            = unexpected_token tokenType got) as Hm by congruence.
    assert (set_tokenizer (consumed (Datatypes.S k) (tokenizer A)) A = A')
      as <- by congruence.
    apply unexpected_token_inj in Hm.
    rewrite andb_true_r in C.
    apply negb_true_iff, String.eqb_neq in D.
    exists k, t. repeat split; auto; try congruence.
    intros offset. simpl. apply peekToken_consumed.
Qed.

Lemma failed_read_consumes_witness :
  exists (k : nat) (t : Token),
    skipped (tokenizer (two_lines 1)) "STRING" k
    /\ Tokenizer.peekToken (Z.of_nat k) (tokenizer (two_lines 1)) = Some t
    /\ hidden t = false /\ type t = "NUMBER" /\ "NUMBER" <> "STRING"
    /\ two_lines 3
       = set_tokenizer (consumed (S k) (tokenizer (two_lines 1))) (two_lines 1)
    /\ Tokenizer.lookaheadIndex (tokenizer (two_lines 3))
       = Tokenizer.lookaheadIndex (tokenizer (two_lines 1)) + S k
    /\ forall offset,
         Tokenizer.peekToken offset (tokenizer (two_lines 3))
         = Tokenizer.peekToken (offset + Z.of_nat (S k))
             (tokenizer (two_lines 1)).
Proof.
  apply (failed_read_consumes (two_lines 1) (two_lines 3) "STRING" "NUMBER").
  reflexivity.
Defined.

Example failed_read_then_peek :
  read "STRING" (two_lines 0)
  = (Throw (unexpected_token "STRING" "NUMBER"), two_lines 1)
  /\ read "NUMBER" (two_lines 1) = (Ok tok_two, two_lines 3).
Proof. split; reflexivity. Qed.

(** ** Mode gating *)

(** C7.  Outside of [parse], [peek], [read], [isEOF] and [isPeekType]
    throw the only-whilst-parsing error; during [parse],
    [registerToken], [registerHiddenToken] and [parse] throw the
    not-whilst-parsing error; and each leaves the facade as it was. *)
Theorem mode_gating (A : Anatomize) :
  (parsing A = false ->
   forall (offset : Z) (tokenType : string),
     peek offset A = (Throw only_whilst_parsing, A)
     /\ read tokenType A = (Throw only_whilst_parsing, A)
     /\ isEOF A = (Throw only_whilst_parsing, A)
     /\ isPeekType tokenType offset A = (Throw only_whilst_parsing, A))
  /\ (parsing A = true ->
      forall (n : option string) (m : matcher_arg) (R : Type)
             (main : M Anatomize R) (source : string),
        registerToken n m A = (Throw whilst_parsing, A)
        /\ registerHiddenToken n m A = (Throw whilst_parsing, A)
        /\ parse main source A = Some (Throw whilst_parsing, A)).
Proof.
  split; intros P.
  - intros offset tokenType.
    unfold isPeekType, isEOF, read, peek, bind, errorIfNotParsing.
    rewrite P. simpl. auto.
  - intros n m R main source.
    unfold registerToken, registerHiddenToken, addTokenType, parse, bind,
      errorIfParsing.
    rewrite P. auto.
Qed.

Lemma mode_gating_witness :
  (peek 0 create = (Throw only_whilst_parsing, create)
   /\ read "NUMBER" create = (Throw only_whilst_parsing, create)
   /\ isEOF create = (Throw only_whilst_parsing, create)
   /\ isPeekType "NUMBER" 0 create = (Throw only_whilst_parsing, create))
  /\ (registerToken (Some ";") (ARegExp (re_plus true is_newline))
        (two_lines 0) = (Throw whilst_parsing, two_lines 0)
      /\ registerHiddenToken (Some ";") (ARegExp (re_plus true is_newline))
           (two_lines 0) = (Throw whilst_parsing, two_lines 0)
      /\ parse isEOF "1" (two_lines 0)
         = Some (Throw whilst_parsing, two_lines 0)).
Proof.
  split.
  - apply (proj1 (mode_gating create) eq_refl 0%Z "NUMBER").
  - apply (proj2 (mode_gating (two_lines 0)) eq_refl).
Defined.

(** ** [parse] and the parsing flag *)

(** When the tokenizer returns, [parse] runs the main function and
    leaves the flag unset, however the main function ends. *)
Lemma parse_resets_after_main {R : Type} (main : M Anatomize R) source A T :
  parsing A = false ->
  Tokenizer.initialize source (tokenizer A) = Some (Ok tt, T) ->
  exists r A', parse main source A = Some (r, A') /\ parsing A' = false.
Proof.
  intros P I. unfold parse, errorIfParsing. rewrite P. simpl. rewrite I.
  destruct (main _) as [r A2]. exists r, (set_parsing false A2). auto.
Qed.

(** When the tokenizer throws, [parse] has set the flag and is outside
    of its [try]: the flag stays set, and every later [parse] on this
    facade is refused. *)
Lemma parse_locked_after_tokenizer_error
    {R : Type} (main : M Anatomize R) source A e T :
  parsing A = false ->
  Tokenizer.initialize source (tokenizer A) = Some (Throw e, T) ->
  exists A', parse main source A = Some (Throw e, A')
             /\ parsing A' = true
             /\ forall source', parse main source' A'
                                = Some (Throw whilst_parsing, A').
Proof.
  intros P I. unfold parse at 1. unfold errorIfParsing. rewrite P. simpl.
  rewrite I. eexists; split; [reflexivity|]. split; [reflexivity|].
  intros source'. reflexivity.
Qed.

(** C1, on the code.  A source with a character no token type matches,
    and a source on which the string routine throws: [parse] throws the
    tokenizer's error and leaves the parsing flag set, for every main
    function, and the next [parse] on the facade is refused as
    re-entrant. *)
Theorem parse_tokenizer_error_keeps_flag (R : Type) (main : M Anatomize R) :
  exists A1 A2,
    parse main "x" (registered [NUMBER])
    = Some (Throw (Tokenizer.undefined_token "x"), A1)
    /\ parsing A1 = true
    /\ parse main "5" A1 = Some (Throw whilst_parsing, A1)
    /\ parse main (dquote ++ "abc") (registered [STRING])
       = Some (Throw not_terminated, A2)
    /\ parsing A2 = true
    /\ parse main "5" A2 = Some (Throw whilst_parsing, A2).
Proof.
  eexists _, _.
  split; [reflexivity|]. split; [reflexivity|]. split; [reflexivity|].
  split; [reflexivity|]. split; reflexivity.
Qed.

(** ** Fixed patterns *)

Lemma re_plus_anchored cls : anchored (re_plus true cls).
Proof.
  intros s i n. simpl. destruct (span cls s); intros H; congruence.
Qed.

Lemma re_one_anchored cls : anchored (re_one true cls).
Proof.
  intros s i n. simpl. destruct s as [|c s]; [discriminate|].
  destruct (cls c); intros H; congruence.
Qed.






Example unanchored_pattern_tokenizes_twice :
  exists T, Tokenizer.initialize "ab12" before_ab12 = Some (Ok tt, T)
            /\ Tokenizer.lookaheadBuffer T
               = [Some (mkToken "NUMBER" "12" false);
                  Some (mkToken "NUMBER" "12" false)].
Proof. eexists; split; reflexivity. Qed.

(** ** Registration order *)

(** C5.  With the token types in registration order [pre ++ d :: post],
    where those in [pre] report no match on the unconsumed remainder:
    when [d] reports a match, the call is decided by [d] (its token when
    it emits one, with [d]'s name, value and hidden flag; its discard
    otherwise); when [d]'s matcher throws, the call throws.  The types
    in [post] play no part, whether they would match or not. *)
Theorem first_match_wins
    (T : Tokenizer.t) (fuel : nat) (pre post : list TokenType) (d : TokenType) :
  let INPUT := slice (Tokenizer.index T) (Tokenizer.buffer T) in
  Tokenizer.TokenTypes T = (pre ++ d :: post)%list ->
  Forall (reports_no_match INPUT) pre ->
  (forall v l, reports_match INPUT d v l ->
     Tokenizer.readToken (S fuel) T
     = match Tokenizer.emitted d v with
       | Some Token => Some (Ok (Some Token), Tokenizer.advance l T)
       | None =>
           if Tokenizer.isEOF (Tokenizer.advance l T)
           then Some (Ok None, Tokenizer.advance l T)
           else Tokenizer.readToken fuel (Tokenizer.advance l T)
       end
     /\ forall t, Tokenizer.emitted d v = Some t ->
          Tokenizer.readToken (S fuel) T
          = Some (Ok (Some t), Tokenizer.advance l T)
          /\ name d = Some (type t) /\ v = Some (value t)
          /\ hidden t = thidden d)
  /\ (forall e, Tokenizer.attempt (tmatcher d) INPUT = Throw e ->
        Tokenizer.readToken (S fuel) T = Some (Throw e, T)).
Proof.
  intros INPUT HT Hpre. split.
  - intros v l RM.
    assert (Tokenizer.readToken (S fuel) T
            = match Tokenizer.emitted d v with
              | Some Token => Some (Ok (Some Token), Tokenizer.advance l T)
              | None =>
                  if Tokenizer.isEOF (Tokenizer.advance l T)
                  then Some (Ok None, Tokenizer.advance l T)
                  else Tokenizer.readToken fuel (Tokenizer.advance l T)
              end) as E.
    { simpl. fold INPUT. rewrite HT.
      apply (for_TokenTypes_first _ INPUT T pre d post v l Hpre RM). }
    split; [exact E|].
    intros t Ht. rewrite E, Ht. split; [reflexivity|].
    apply emitted_some in Ht. tauto.
  - intros e He. simpl. fold INPUT. rewrite HT.
    rewrite for_TokenTypes_skip by exact Hpre. simpl. rewrite He.
    reflexivity.
Qed.

Lemma first_match_wins_witness :
  reports_match "ab" LETTER (Some "a") 1
  /\ Tokenizer.readToken 1 before_ab
     = Some (Ok (Some (mkToken "WORD" "ab" false)),
             Tokenizer.advance 2 before_ab).
Proof.
  split; [split; reflexivity|].
  assert (Forall (reports_no_match "ab") [WHITESPACE]) as Hpre.
  { constructor; [|constructor]. exists None, 0. split; reflexivity. }
  destruct (first_match_wins before_ab 0 [WHITESPACE] [LETTER] WORD
              eq_refl Hpre) as [H _].
  destruct (H (Some "ab") 2 (conj eq_refl eq_refl)) as [_ H2].
  apply (H2 (mkToken "WORD" "ab" false) eq_refl).
Defined.

Example registration_order_decides :
  Tokenizer.readToken 1 (Tokenizer.mk [LETTER; WORD] "ab" 0 [] 0)
  = Some (Ok (Some (mkToken "LETTER" "a" false)),
          Tokenizer.advance 1 (Tokenizer.mk [LETTER; WORD] "ab" 0 [] 0)).
Proof. reflexivity. Qed.

(** ** Discards *)

Lemma isEOF_slice T :
  Tokenizer.isEOF T = true
  <-> slice (Tokenizer.index T) (Tokenizer.buffer T) = EmptyString.
Proof.
  unfold Tokenizer.isEOF. rewrite Nat.leb_le. split; intros H.
  - pose proof (length_slice (Tokenizer.buffer T) (Tokenizer.index T)) as L.
    destruct (slice _ _); [reflexivity | simpl in L; lia].
  - pose proof (length_slice (Tokenizer.buffer T) (Tokenizer.index T)) as L.
    rewrite H in L. simpl in L. lia.
Qed.

(** On a rest of the source that discards consume, [#readToken] returns
    [null] with the source at its end. *)
Lemma readToken_discardable types INPUT :
  discardable types INPUT ->
  forall T fuel,
    Tokenizer.TokenTypes T = types ->
    INPUT = slice (Tokenizer.index T) (Tokenizer.buffer T) ->
    Tokenizer.isEOF T = false ->
    remaining T <= fuel ->
    exists T', Tokenizer.readToken fuel T = Some (Ok None, T')
               /\ moved_on T T' /\ Tokenizer.isEOF T' = true.
Proof.
  induction 1 as [|INPUT pre d post v l Ht Hpre RM Hem Hrest IH];
    intros T fuel HT HI EOF Hrem.
  - symmetry in HI. apply isEOF_slice in HI. congruence.
  - destruct fuel as [|fuel].
    { unfold Tokenizer.isEOF in EOF. apply Nat.leb_gt in EOF.
      unfold remaining in Hrem. lia. }
    simpl. rewrite <- HI, HT, Ht.
    rewrite (for_TokenTypes_first _ INPUT T pre d post v l Hpre RM), Hem.
    destruct (Tokenizer.isEOF (Tokenizer.advance l T)) eqn:EOF'.
    + eexists; split; [reflexivity|].
      split; [eapply moved_on_advance, moved_on_refl | exact EOF'].
    + destruct RM as [RA RN].
      pose proof (attempt_progress _ _ _ _ RA RN) as Hl.
      destruct (IH (Tokenizer.advance l T) fuel) as (T' & R & M & E).
      * exact HT.
      * simpl. rewrite HI. apply slice_slice.
      * exact EOF'.
      * unfold Tokenizer.isEOF in EOF'. apply Nat.leb_gt in EOF'.
        unfold remaining in *. simpl in *. lia.
      * exists T'. split; [exact R|].
        split; [eapply moved_on_advance; exact M | exact E].
Qed.

Lemma initialize_discardable source T :
  discardable (Tokenizer.TokenTypes T) source ->
  exists T', Tokenizer.initialize source T = Some (Ok tt, T')
             /\ Forall (fun e => e = None) (Tokenizer.lookaheadBuffer T')
             /\ Tokenizer.TokenTypes T' = Tokenizer.TokenTypes T
             /\ Tokenizer.lookaheadIndex T' = 0.
Proof.
  intros D. unfold Tokenizer.initialize.
  set (T0 := Tokenizer.mk (Tokenizer.TokenTypes T) source 0 [] 0).
  simpl. destruct (Tokenizer.isEOF T0) eqn:EOF.
  - exists T0. repeat split; auto.
  - destruct (readToken_discardable _ _ D T0 (String.length source))
      as (T' & R & (M1 & M2 & M3 & M4 & M5) & E); auto.
    { unfold remaining; simpl. lia. }
    rewrite R.
    destruct (String.length source) as [|n] eqn:L.
    { unfold Tokenizer.isEOF in EOF. simpl in EOF. rewrite L in EOF.
      discriminate. }
    simpl.
    replace (Tokenizer.isEOF (Tokenizer.push None T')) with true
      by (symmetry; exact E).
    exists (Tokenizer.push None T'). simpl. rewrite M3. simpl.
    repeat split; auto.
Qed.

Lemma peek_nothing_buffered A :
  parsing A = true ->
  Forall (fun e => e = None) (Tokenizer.lookaheadBuffer (tokenizer A)) ->
  forall offset, peek offset A = (Ok None, A).
Proof.
  intros P F offset. apply peek_none; [exact P|].
  intros j t E. apply peekToken_some in E. destruct E as (i & _ & N).
  apply nth_error_In in N. rewrite Forall_forall in F.
  specialize (F _ N). discriminate.
Qed.

Lemma isEOF_unfold A :
  parsing A = true ->
  isEOF A = match peek 0 A with
            | (Ok Token, A') =>
                (Ok (match Token with Some _ => false | None => true end), A')
            | (Throw e, A') => (Throw e, A')
            end.
Proof.
  intros P. unfold isEOF, bind at 1. unfold errorIfNotParsing. rewrite P.
  reflexivity.
Qed.

(** C6.  When the source is consumed by discards alone up to its end,
    [initialize] returns without an error and the buffer holds no token;
    the main function is called on a facade where [peek] yields nothing
    at every offset and [isEOF()] is true. *)
Theorem only_discards_give_no_tokens (A : Anatomize) (source : string) :
  parsing A = false ->
  discardable (Tokenizer.TokenTypes (tokenizer A)) source ->
  exists T',
    Tokenizer.initialize source (tokenizer A) = Some (Ok tt, T')
    /\ Forall (fun e => e = None) (Tokenizer.lookaheadBuffer T')
    /\ (forall offset,
          peek offset (mkAnatomize T' true) = (Ok None, mkAnatomize T' true))
    /\ isEOF (mkAnatomize T' true) = (Ok true, mkAnatomize T' true)
    /\ forall (R : Type) (main : M Anatomize R),
         parse main source A
         = Some (let (r, A2) := main (mkAnatomize T' true) in
                 (r, set_parsing false A2)).
Proof.
  intros P D.
  destruct (initialize_discardable source (tokenizer A) D)
    as (T' & I & F & _ & _).
  exists T'. split; [exact I|]. split; [exact F|].
  assert (forall offset,
            peek offset (mkAnatomize T' true) = (Ok None, mkAnatomize T' true))
    as Hpeek by (apply peek_nothing_buffered; auto).
  split; [exact Hpeek|]. split.
  - rewrite isEOF_unfold by reflexivity. rewrite Hpeek. reflexivity.
  - intros R main. unfold parse, errorIfParsing. rewrite P. simpl. rewrite I.
    unfold set_tokenizer, set_parsing at 2. simpl.
    destruct (main _) as [r A2]. reflexivity.
Qed.

Lemma blanks_discardable : discardable [WHITESPACE; HASH; NUMBER] "  #".
Proof.
  apply (discardable_match _ "  #" [] WHITESPACE [HASH; NUMBER] (Some "  ") 2);
    [reflexivity | constructor | split; reflexivity | reflexivity |].
  apply (discardable_match _ "#" [WHITESPACE] HASH [NUMBER] None 1);
    [reflexivity | | split; reflexivity | reflexivity | constructor].
  constructor; [|constructor]. exists None, 0. split; reflexivity.
Defined.

Lemma only_discards_give_no_tokens_witness :
  exists T',
    Tokenizer.initialize "  #"
      (tokenizer (registered [WHITESPACE; HASH; NUMBER])) = Some (Ok tt, T')
    /\ Forall (fun e => e = None) (Tokenizer.lookaheadBuffer T')
    /\ (forall offset,
          peek offset (mkAnatomize T' true) = (Ok None, mkAnatomize T' true))
    /\ isEOF (mkAnatomize T' true) = (Ok true, mkAnatomize T' true)
    /\ forall (R : Type) (main : M Anatomize R),
         parse main "  #" (registered [WHITESPACE; HASH; NUMBER])
         = Some (let (r, A2) := main (mkAnatomize T' true) in
                 (r, set_parsing false A2)).
Proof.
  apply (only_discards_give_no_tokens
           (registered [WHITESPACE; HASH; NUMBER]) "  #").
  - reflexivity.
  - exact blanks_discardable.
Defined.

Example whitespace_only :
  exists A', parse isEOF "   " (registered [WHITESPACE]) = Some (Ok true, A')
             /\ Tokenizer.lookaheadBuffer (tokenizer A') = [None].
Proof. eexists; split; reflexivity. Qed.

(** ** Token values *)

(** [peek] returns a token of the buffer. *)
Lemma peek_from_buffer A offset t A' :
  peek offset A = (Ok (Some t), A') ->
  In (Some t) (Tokenizer.lookaheadBuffer (tokenizer A)) /\ A' = A.
Proof.
  intros H. destruct (parsing A) eqn:P.
  - destruct (walk_exists (tokenizer A) offset) as [k W].
    rewrite (peek_at_walk_end A offset k P W) in H.
    injection H as H <-. split; [|reflexivity].
    apply peekToken_some in H. destruct H as (i & _ & N).
    eapply nth_error_In; eauto.
  - unfold peek, bind, errorIfNotParsing in H. rewrite P in H. discriminate.
Qed.

(** [read] leaves the buffer as it is and returns a token of it. *)
Lemma read_from_buffer A tokenType r A' :
  read tokenType A = (r, A') ->
  Tokenizer.lookaheadBuffer (tokenizer A')
  = Tokenizer.lookaheadBuffer (tokenizer A)
  /\ forall t, r = Ok t -> In (Some t) (Tokenizer.lookaheadBuffer (tokenizer A)).
Proof.
  intros H. destruct (parsing A) eqn:P.
  - rewrite (read_unfold A tokenType P) in H.
    destruct (read_loop_walk tokenType (ahead (tokenizer A)) (tokenizer A)
                eq_refl) as (k & _ & [(_ & T' & R & C)|(t & Pk & _ & R)]);
      rewrite R in H.
    + injection H as <- <-. split; [|discriminate].
      destruct C as [-> | ->]; reflexivity.
    + apply peekToken_some in Pk. destruct Pk as (i & _ & N).
      apply nth_error_In in N.
      destruct (negb (String.eqb (type t) tokenType));
        injection H as <- <-; (split; [reflexivity|]); intros t' E;
        [discriminate | congruence].
  - unfold read, bind, errorIfNotParsing in H. rewrite P in H. simpl in H.
    injection H as <- <-. split; [reflexivity | discriminate].
Qed.

Lemma valued_in buf t :
  valued buf -> In (Some t) buf -> value t <> EmptyString.
Proof.
  unfold valued. rewrite Forall_forall. intros V H.
  exact (proj1 (V _ H)).
Qed.

(** C8.  [initialize] returns (with or without an error) and every
    token it has put into the lookahead buffer has a non-empty value;
    [peek] and [read] return tokens of that buffer only and leave it as
    it is; and a match without a value is a non-match when its length is
    zero and a discard when its length is positive. *)
Theorem tokens_have_values (source : string) (T0 : Tokenizer.t) :
  (exists r T, Tokenizer.initialize source T0 = Some (r, T)
               /\ valued (Tokenizer.lookaheadBuffer T))
  /\ (forall A, valued (Tokenizer.lookaheadBuffer (tokenizer A)) ->
        (forall offset t A', peek offset A = (Ok (Some t), A') ->
           value t <> EmptyString /\ A' = A)
        /\ (forall tokenType r A', read tokenType A = (r, A') ->
              valued (Tokenizer.lookaheadBuffer (tokenizer A'))
              /\ forall t, r = Ok t -> value t <> EmptyString))
  /\ (forall d INPUT v l,
        Tokenizer.attempt (tmatcher d) INPUT = Ok (v, l) ->
        truthy v = false ->
        (l = 0 -> Tokenizer.no_match v l = true)
        /\ (1 <= l -> Tokenizer.no_match v l = false
                      /\ Tokenizer.emitted d v = None)).
Proof.
  split; [|split].
  - destruct (initialize_total source T0) as (r & T & I & _ & _ & _ & V).
    exists r, T. auto.
  - intros A V. split.
    + intros offset t A' H. apply peek_from_buffer in H. destruct H as [H ->].
      split; [eapply valued_in; eauto | reflexivity].
    + intros tokenType r A' H. apply read_from_buffer in H.
      destruct H as [B H]. rewrite B. split; [exact V|].
      intros t E. eapply valued_in; eauto.
  - intros d INPUT v l _ Hv. unfold Tokenizer.no_match. rewrite Hv. simpl.
    split.
    + intros ->. reflexivity.
    + intros Hl. split; [apply Nat.ltb_ge; exact Hl|].
      unfold Tokenizer.emitted. destruct (name d) as [n|]; [|reflexivity].
      destruct v as [v|]; [|reflexivity].
      rewrite Hv, andb_false_r. reflexivity.
Qed.

Lemma tokens_have_values_witness :
  value tok_two <> EmptyString
  /\ (Tokenizer.no_match None 1 = false
      /\ Tokenizer.emitted HASH None = None).
Proof.
  destruct (tokens_have_values ("1" ++ newline ++ "2")
              (tokenizer (registered [NUMBER; SEMICOLON; NEWLINE])))
    as (_ & H & G).
  split.
  - assert (valued (Tokenizer.lookaheadBuffer (tokenizer (two_lines 1))))
      as V by (repeat constructor; discriminate).
    destruct (H (two_lines 1) V) as [_ Hread].
    destruct (Hread "NUMBER" (Ok tok_two) (two_lines 3) eq_refl) as [_ Hv].
    apply (Hv tok_two eq_refl).
  - destruct (G HASH "#" None 1 eq_refl eq_refl) as [_ G2].
    apply G2. apply le_n.
Defined.

Example hash_is_discarded :
  exists T, Tokenizer.initialize "#a#" (tokenizer (registered [HASH; WORD]))
            = Some (Ok tt, T)
            /\ Tokenizer.lookaheadBuffer T
               = [Some (mkToken "WORD" "a" false); None].
Proof. eexists; split; reflexivity. Qed.

(** ** The scenarios of the guide *)

Example number_scenario :
  exists A', parse (read "NUMBER") "5" (registered [NUMBER])
             = Some (Ok (mkToken "NUMBER" "5" false), A')
             /\ parsing A' = false.
Proof. eexists; split; reflexivity. Qed.

Example string_scenario :
  exists A', parse (read "STRING") (dquote ++ "foo" ++ dquote)
               (registered [NUMBER; STRING])
             = Some (Ok (mkToken "STRING" "foo" false), A')
             /\ parsing A' = false.
Proof. eexists; split; reflexivity. Qed.

Example newline_as_semicolon_scenario :
  exists A',
    parse (a <- read "NUMBER" ;; s <- read ";" ;; b <- read "NUMBER" ;;
           ret (a, s, b))
      ("1" ++ newline ++ "2") (registered [NUMBER; SEMICOLON; NEWLINE])
    = Some (Ok (tok_one, tok_newline, tok_two), A')
    /\ parsing A' = false.
Proof. eexists; split; reflexivity. Qed.

Example main_throws_flag_reset :
  exists A', parse (read "STRING") "5" (registered [NUMBER])
             = Some (Throw (unexpected_token "STRING" "NUMBER"), A')
             /\ parsing A' = false.
Proof. eexists; split; reflexivity. Qed.

(** * Further properties *)

(** ** What a matcher can report *)

Lemma subseq_refl s : subseq s s.
Proof. induction s; constructor; auto. Qed.

Lemma subseq_empty s : subseq EmptyString s.
Proof. induction s; constructor; auto. Qed.

Lemma subseq_app_same a b x : subseq a b -> subseq (a ++ x) (b ++ x).
Proof.
  induction 1; simpl; [apply subseq_refl | constructor; auto ..].
Qed.

Lemma subseq_app_drop a b x : subseq a b -> subseq a (b ++ x).
Proof.
  induction 1; simpl; try (constructor; auto).
  induction x; constructor; auto.
Qed.

Lemma subseq_length a b : subseq a b -> String.length a <= String.length b.
Proof. induction 1; simpl; lia. Qed.

Lemma substring_snoc (s : string) :
  forall i, substring 0 (S i) s = substring 0 i s ++ substring i 1 s.
Proof.
  induction s as [|c s IH]; intros [|i]; simpl; auto.
  f_equal. apply IH.
Qed.

Lemma length_substring_source (s : string) :
  forall i n, String.length (substring i n s) <= String.length s - i.
Proof.
  induction s as [|c s IH]; intros [|i] [|n]; simpl; try lia.
  - specialize (IH 0 n). lia.
  - apply (IH i 0).
  - apply (IH i (S n)).
Qed.

Lemma substring_is_subseq (s : string) :
  forall i n, subseq (substring i n s) s.
Proof.
  induction s as [|c s IH]; intros [|i] [|n]; simpl;
    try (constructor; auto; fail).
  apply subseq_empty.
Qed.

(** The characters read so far are characters of the part of the input
    the cursor has passed, in their order. *)
Lemma run_subseq (r : Matcher.routine) :
  forall m o m',
    Matcher.run r m = (o, m') ->
    subseq (Matcher.result m)
           (substring 0 (Matcher.index m) (Matcher.buffer m)) ->
    subseq (Matcher.result m')
           (substring 0 (Matcher.index m') (Matcher.buffer m')).
Proof.
  induction r as [v|e|c k IH|off k IH|c k IH|k IH|i k IH|k IH];
    simpl; intros m o m' H Inv.
  - inversion H; subst; auto.
  - inversion H; subst; auto.
  - unfold bind in H.
    destruct (Matcher.readChar c m) as [[x|e] m1] eqn:E.
    + apply (IH x m1 o m' H).
      revert E. unfold Matcher.readChar, bind, Matcher.isEOF, throw.
      destruct (String.length (Matcher.buffer m) <=? Matcher.index m);
        [discriminate|].
      destruct (Matcher.given c
                && negb (Matcher.constraintCheck (Matcher.current m) c));
        intros E; inversion E; subst; auto.
      simpl. rewrite substring_snoc. apply subseq_app_same. exact Inv.
    + inversion H; subst.
      revert E. unfold Matcher.readChar, bind, Matcher.isEOF, throw.
      destruct (String.length (Matcher.buffer m) <=? Matcher.index m).
      * intros E; inversion E; subst; auto.
      * destruct (Matcher.given c
                  && negb (Matcher.constraintCheck (Matcher.current m) c));
          discriminate.
  - unfold bind, Matcher.peekChar in H. eapply IH; eauto.
  - unfold bind in H.
    destruct (Matcher.omitChar c m) as [[x|e] m1] eqn:E.
    + apply (IH x m1 o m' H).
      revert E. unfold Matcher.omitChar, bind, Matcher.isEOF, throw.
      destruct (String.length (Matcher.buffer m) <=? Matcher.index m);
        [discriminate|].
      destruct (Matcher.given c
                && negb (Matcher.constraintCheck (Matcher.current m) c));
        intros E; inversion E; subst; auto.
      simpl. rewrite substring_snoc. apply subseq_app_drop. exact Inv.
    + inversion H; subst.
      revert E. unfold Matcher.omitChar, bind, Matcher.isEOF, throw.
      destruct (String.length (Matcher.buffer m) <=? Matcher.index m).
      * intros E; inversion E; subst; auto.
      * destruct (Matcher.given c
                  && negb (Matcher.constraintCheck (Matcher.current m) c));
          discriminate.
  - unfold bind, Matcher.isEOF in H. eapply IH; eauto.
  - unfold bind, Matcher.charAt in H. eapply IH; eauto.
  - unfold bind, Matcher.getIndex in H. eapply IH; eauto.
Qed.

Lemma match_within
    (p : Matcher.pattern) (input : string) (v : Matcher.retval)
    (tokenValue : option string) (tokenLength : nat) :
  Matcher.match_ p input = Ok (v, tokenValue, tokenLength) ->
  tokenLength <= String.length input
  /\ match tokenValue with
     | Some s =>
         s <> EmptyString
         /\ subseq s (substring 0 tokenLength input)
         /\ 1 <= String.length s <= tokenLength
     | None => True
     end.
Proof.
  intros H. pose proof (match_ok _ _ _ _ _ H) as [Hpos Hlen].
  split; [exact Hlen|].
  unfold Matcher.match_ in H.
  destruct (Matcher.run (p input) (Matcher.mk input 0 EmptyString))
    as [[x|e] m] eqn:E; [|discriminate].
  injection H as _ Hv Hl. subst tokenLength.
  pose proof (run_subseq _ _ _ _ E) as S. simpl in S.
  specialize (S (subseq_empty _)).
  destruct (run_ok _ _ _ _ E) as (B & _ & _ & _). simpl in B. rewrite B in S.
  destruct (Matcher.result m) as [|c s] eqn:R; simpl in Hv; subst tokenValue;
    [exact I|].
  split; [discriminate|]. split; [exact S|].
  apply subseq_length in S.
  pose proof (length_substring_le input 0 (Matcher.index m)).
  simpl in *. lia.
Qed.

(** X1.  Whatever routine a [#Matcher] wraps, [match(input)] reports a
    length that stays inside the input, and a value that is never the
    empty string: a value is made of characters of the first [length]
    characters of the input, in their order (the omitted ones left out),
    so it is no longer than the length and comes with a length of at
    least one. *)
Theorem match_value_within_input
    (p : Matcher.pattern) (input : string) (v : Matcher.retval)
    (tokenValue : option string) (tokenLength : nat) :
  Matcher.match_ p input = Ok (v, tokenValue, tokenLength) ->
  tokenLength <= String.length input
  /\ match tokenValue with
     | Some s =>
         s <> EmptyString
         /\ subseq s (substring 0 tokenLength input)
         /\ 1 <= String.length s <= tokenLength
     | None => True
     end.
Proof. apply match_within. Qed.

Lemma match_value_within_input_witness :
  5 <= String.length (dquote ++ "foo" ++ dquote)
  /\ "foo" <> EmptyString
     /\ subseq "foo" (substring 0 5 (dquote ++ "foo" ++ dquote))
     /\ 1 <= String.length "foo" <= 5.
Proof.
  apply (match_value_within_input string_routine (dquote ++ "foo" ++ dquote)
           Matcher.ROther (Some "foo") 5).
  reflexivity.
Defined.

Lemma attempt_within
    (m : matcher) (INPUT : string) (v : option string) (l : nat) :
  Tokenizer.attempt m INPUT = Ok (v, l) ->
  l <= String.length INPUT
  /\ (forall s, v = Some s -> String.length s <= l)
  /\ (l = 0 -> Tokenizer.no_match v l = true)
  /\ (Tokenizer.no_match v l = false -> 1 <= l).
Proof.
  intros H.
  assert (l <= String.length INPUT
          /\ forall s, v = Some s -> String.length s <= l) as [B1 B2].
  { destruct m as [p|re]; simpl in H.
    - destruct (Matcher.match_ p INPUT) as [[[x tv] tl]|e] eqn:E;
        [|discriminate].
      apply match_within in E. destruct E as [E1 E2].
      destruct x; inversion H; subst; clear H;
        try (split; [lia | discriminate]).
      split; [exact E1|]. intros s ->. lia.
    - inversion H; subst; clear H. unfold string_match.
      destruct (exec re INPUT) as [[i n]|].
      + pose proof (length_substring_source INPUT i n).
        split; [lia|]. intros s E. inversion E; subst. lia.
      + simpl. split; [lia | discriminate]. }
  split; [exact B1|]. split; [exact B2|]. split.
  - intros ->. unfold Tokenizer.no_match.
    destruct v as [[|c s]|]; auto.
    specialize (B2 _ eq_refl). simpl in B2. lia.
  - intros N. eapply attempt_progress; eauto.
Qed.

(** X2.  Every match a token type reports, fixed pattern or routine,
    lies inside the unconsumed remainder: its length is at most the
    length of the remainder and its value is no longer than its length.
    A match of length zero is never accepted, so an accepted match
    consumes between one character and the whole remainder. *)
Theorem reported_match_within_remainder
    (m : matcher) (INPUT : string) (v : option string) (l : nat) :
  Tokenizer.attempt m INPUT = Ok (v, l) ->
  l <= String.length INPUT
  /\ (forall s, v = Some s -> String.length s <= l)
  /\ (l = 0 -> Tokenizer.no_match v l = true)
  /\ (Tokenizer.no_match v l = false -> 1 <= l).
Proof. apply attempt_within. Qed.

Lemma reported_match_within_remainder_witness :
  2 <= String.length "12 ab"
  /\ (forall s, Some "12" = Some s -> String.length s <= 2)
  /\ (2 = 0 -> Tokenizer.no_match (Some "12") 2 = true)
  /\ (Tokenizer.no_match (Some "12") 2 = false -> 1 <= 2).
Proof.
  apply (reported_match_within_remainder
           (RegExpObj (re_plus true is_digit)) "12 ab" (Some "12") 2).
  reflexivity.
Defined.

(** ** Constraints of [readChar] and [omitChar] *)

Lemma substring_0_0 s : substring 0 0 s = EmptyString.
Proof. destruct s; reflexivity. Qed.

Lemma length_current m :
  Matcher.index m < String.length (Matcher.buffer m) ->
  String.length (Matcher.current m) = 1.
Proof.
  unfold Matcher.current. generalize (Matcher.index m) as i.
  induction (Matcher.buffer m) as [|c s IH]; intros i H; simpl in H; [lia|].
  destruct i as [|i]; simpl.
  - now rewrite substring_0_0.
  - apply IH. lia.
Qed.

Lemma no_element_is_current l s :
  String.length s = 1 ->
  Forall (fun x => String.length x <> 1) l ->
  existsb (String.eqb s) l = false.
Proof.
  intros Hs. induction 1 as [|x l Hx _ IH]; simpl; [reflexivity|].
  rewrite IH, orb_false_r. apply String.eqb_neq. congruence.
Qed.

(** X3.  What the constraint does at its edges, for [readChar] and
    [omitChar] alike: at the end of the input both throw their
    [RangeError] whatever the constraint, and leave the matcher as it
    was; the empty string is no constraint; a longer string constrains
    by its first character only; and an array whose elements are not
    single characters (the empty array among them) admits nothing: the
    call returns [null] and the cursor and the result stay. *)
Theorem constraint_edges (m : Matcher.t) :
  (String.length (Matcher.buffer m) <= Matcher.index m ->
   forall c,
     Matcher.readChar c m
     = (Throw (RangeError
                 "Unexpected End of Input; Cannot read another Character"), m)
     /\ Matcher.omitChar c m
        = (Throw (RangeError
                    "Unexpected End of Input; Cannot omit another Character"),
           m))
  /\ (Matcher.readChar (Matcher.CString EmptyString) m
      = Matcher.readChar Matcher.NoConstraint m
      /\ Matcher.omitChar (Matcher.CString EmptyString) m
         = Matcher.omitChar Matcher.NoConstraint m)
  /\ (forall c rest,
        Matcher.readChar (Matcher.CString (String c rest)) m
        = Matcher.readChar (Matcher.CString (String c EmptyString)) m
        /\ Matcher.omitChar (Matcher.CString (String c rest)) m
           = Matcher.omitChar (Matcher.CString (String c EmptyString)) m)
  /\ (Matcher.index m < String.length (Matcher.buffer m) ->
      forall l, Forall (fun x => String.length x <> 1) l ->
        Matcher.readChar (Matcher.CArray l) m = (Ok None, m)
        /\ Matcher.omitChar (Matcher.CArray l) m = (Ok None, m)).
Proof.
  split; [|split; [|split]].
  - intros H c. apply Nat.leb_le in H.
    unfold Matcher.readChar, Matcher.omitChar, bind, Matcher.isEOF, throw.
    rewrite H. auto.
  - split; reflexivity.
  - intros c rest.
    unfold Matcher.readChar, Matcher.omitChar, bind, Matcher.isEOF.
    simpl. rewrite substring_0_0. split; reflexivity.
  - intros H l Hl. apply Nat.leb_gt in H as H'.
    unfold Matcher.readChar, Matcher.omitChar, bind, Matcher.isEOF.
    rewrite H'. simpl.
    rewrite (no_element_is_current l _ (length_current m H) Hl).
    auto.
Qed.

Lemma constraint_edges_witness :
  Matcher.readChar Matcher.NoConstraint (Matcher.mk "ab" 2 "ab")
  = (Throw (RangeError
              "Unexpected End of Input; Cannot read another Character"),
     Matcher.mk "ab" 2 "ab")
  /\ Matcher.readChar (Matcher.CArray ["ab"; "cd"]) (Matcher.mk "ab" 0 EmptyString)
     = (Ok None, Matcher.mk "ab" 0 EmptyString).
Proof.
  split.
  - apply (proj1 (constraint_edges (Matcher.mk "ab" 2 "ab"))
             (le_n 2) Matcher.NoConstraint).
  - assert (Forall (fun x => String.length x <> 1) ["ab"; "cd"]) as F
      by (repeat constructor; discriminate).
    pose proof (constraint_edges (Matcher.mk "ab" 0 EmptyString))
      as (_ & _ & _ & H).
    apply (H (Nat.lt_0_succ 1) _ F).
Defined.

(** ** [#readToken] and [initialize], step by step *)

Lemma for_TokenTypes_inv again INPUT T :
  forall types r T',
  Tokenizer.for_TokenTypes again INPUT types T = Some (r, T') ->
  (Forall (reports_no_match INPUT) types
   /\ r = Throw (Tokenizer.undefined_token INPUT) /\ T' = T)
  \/ exists pre d post,
       types = (pre ++ d :: post)%list
       /\ Forall (reports_no_match INPUT) pre
       /\ ((exists e, Tokenizer.attempt (tmatcher d) INPUT = Throw e
                      /\ r = Throw e /\ T' = T)
           \/ exists v l,
                reports_match INPUT d v l
                /\ ((exists t, Tokenizer.emitted d v = Some t
                               /\ r = Ok (Some t)
                               /\ T' = Tokenizer.advance l T)
                    \/ (Tokenizer.emitted d v = None
                        /\ Tokenizer.isEOF (Tokenizer.advance l T) = true
                        /\ r = Ok None /\ T' = Tokenizer.advance l T)
                    \/ (Tokenizer.emitted d v = None
                        /\ Tokenizer.isEOF (Tokenizer.advance l T) = false
                        /\ again (Tokenizer.advance l T) = Some (r, T')))).
Proof.
  induction types as [|d types IH]; intros r T' H; simpl in H.
  - left. inversion H; subst. auto.
  - destruct (Tokenizer.attempt (tmatcher d) INPUT) as [[v l]|e] eqn:A.
    2:{ right. exists [], d, types. inversion H; subst.
        split; [reflexivity|]. split; [constructor|]. left. eauto. }
    destruct (Tokenizer.no_match v l) eqn:N.
    + destruct (IH r T' H) as [(F & E1 & E2)|(pre & d' & post & E & F & C)].
      * left. split; [|auto]. constructor; [exists v, l; auto | exact F].
      * right. exists (d :: pre), d', post. subst types.
        split; [reflexivity|].
        split; [constructor; [exists v, l; auto | exact F] | exact C].
    + right. exists [], d, types.
      split; [reflexivity|]. split; [constructor|]. right.
      exists v, l. split; [split; assumption|].
      destruct (Tokenizer.emitted d v) as [t|] eqn:Em.
      * left. exists t. inversion H; subst. auto.
      * right. destruct (Tokenizer.isEOF (Tokenizer.advance l T)) eqn:EOF.
        -- left. inversion H; subst. auto.
        -- right. auto.
Qed.

Lemma at_index_advance l T :
  Tokenizer.advance l T = at_index (Tokenizer.index T + l) T.
Proof. reflexivity. Qed.

Lemma at_index_same T : at_index (Tokenizer.index T) T = T.
Proof. destruct T; reflexivity. Qed.

(** Every call of [#readToken] that returns follows the relation. *)
Lemma readToken_reads fuel :
  forall T r T',
  Tokenizer.readToken fuel T = Some (r, T') ->
  reads (Tokenizer.TokenTypes T) (Tokenizer.buffer T) (Tokenizer.index T) r
        (Tokenizer.index T')
  /\ T' = at_index (Tokenizer.index T') T.
Proof.
  induction fuel as [|fuel IH]; intros T r T' H; [discriminate|].
  simpl in H. apply for_TokenTypes_inv in H.
  destruct H as [(F & -> & ->)|(pre & d & post & E & F & C)].
  - split; [apply reads_undefined; exact F | symmetry; apply at_index_same].
  - destruct C as [(e & A & -> & ->)|(v & l & RM & C)].
    + split; [eapply reads_throw; eauto | symmetry; apply at_index_same].
    + destruct C as [(t & Em & -> & ->)|[(Em & EOF & -> & ->)|(Em & EOF & R)]].
      * split; [eapply reads_token; eauto | reflexivity].
      * split; [|reflexivity].
        eapply reads_end; eauto.
        unfold Tokenizer.isEOF in EOF. apply Nat.leb_le in EOF. exact EOF.
      * apply IH in R. destruct R as [R ->]. split; [|reflexivity].
        eapply reads_discard; eauto.
        unfold Tokenizer.isEOF in EOF. apply Nat.leb_gt in EOF. exact EOF.
Qed.

(** Every run of the loop of [initialize] that returns follows the
    relation, and touches nothing but the source position and the buffer. *)
Lemma fill_fills fuel :
  forall T r T',
  Tokenizer.fill fuel T = Some (r, T') ->
  fills (Tokenizer.TokenTypes T) (Tokenizer.buffer T) (Tokenizer.index T)
        (Tokenizer.lookaheadBuffer T) r (Tokenizer.index T')
        (Tokenizer.lookaheadBuffer T')
  /\ Tokenizer.TokenTypes T' = Tokenizer.TokenTypes T
  /\ Tokenizer.buffer T' = Tokenizer.buffer T
  /\ Tokenizer.lookaheadIndex T' = Tokenizer.lookaheadIndex T.
Proof.
  induction fuel as [|fuel IH]; intros T r T' H; [discriminate|].
  simpl in H. destruct (Tokenizer.isEOF T) eqn:EOF.
  - inversion H; subst. split; [|auto]. apply fills_done.
    unfold Tokenizer.isEOF in EOF. apply Nat.leb_le in EOF. exact EOF.
  - unfold Tokenizer.isEOF in EOF. apply Nat.leb_gt in EOF.
    destruct (Tokenizer.readToken fuel T) as [[[Token|e] T1]|] eqn:R;
      [| |discriminate].
    + apply readToken_reads in R. destruct R as [R E1].
      apply IH in H. destruct H as (H & H1 & H2 & H3).
      rewrite E1 in H, H1, H2, H3. simpl in *.
      split; [|auto]. eapply fills_push; eauto.
    + inversion H; subst. apply readToken_reads in R. destruct R as [R E1].
      rewrite E1. simpl. split; [|auto]. eapply fills_throw; eauto.
Qed.

(** A call of [#readToken] only moves forward and stays inside the
    source; it returns [null] only at the end of the source; and where it
    throws, no token type matches the rest of the source or the matcher of
    a registered type has thrown on it. *)
Lemma reads_facts types source i r j :
  reads types source i r j ->
  i <= String.length source ->
  i <= j <= String.length source
  /\ match r with
     | Ok (Some t) => i < j
     | Ok None => String.length source <= j
     | Throw e =>
         (i < String.length source -> j < String.length source)
         /\ ((Forall (reports_no_match (slice j source)) types
              /\ e = Tokenizer.undefined_token (slice j source))
             \/ exists d, In d types
                  /\ Tokenizer.attempt (tmatcher d) (slice j source) = Throw e)
     end.
Proof.
  induction 1 as [i F|i pre d post e E F A|i pre d post v l t E F RM Em
                  |i pre d post v l E F RM Em EOF
                  |i pre d post v l r j E F RM Em EOF R IH]; intros Hi.
  - split; [lia|]. split; auto.
  - split; [lia|]. split; auto. right. exists d. split; auto.
    subst types. apply in_elt.
  - destruct RM as [A N].
    pose proof (attempt_within _ _ _ _ A) as (B & _ & _ & P).
    specialize (P N). rewrite length_slice in B. split; lia.
  - destruct RM as [A N].
    pose proof (attempt_within _ _ _ _ A) as (B & _ & _ & P).
    rewrite length_slice in B. split; lia.
  - destruct RM as [A N].
    pose proof (attempt_within _ _ _ _ A) as (B & _ & _ & P).
    specialize (P N). destruct IH as [IH1 IH2]; [lia|].
    split; [lia|]. destruct r as [[t|]|e]; try lia.
    destruct IH2 as [IH2 IH3]. split; [intros _; apply IH2; exact EOF|].
    exact IH3.
Qed.

(** What the loop of [initialize] leaves: the tokens it has read behind
    the ones that were there, and after them a [null] only when it ends
    without an error; the source consumed to its end when it ends without
    an error, and a position inside the source when it throws. *)
Lemma fills_facts types source i buf r k buf' :
  fills types source i buf r k buf' ->
  i <= String.length source ->
  k <= String.length source
  /\ (exists ts,
        buf' = (buf ++ map Some ts)%list
        \/ (buf' = (buf ++ map Some ts ++ [None])%list /\ r = Ok tt))
  /\ match r with
     | Ok _ => k = String.length source
     | Throw e =>
         k < String.length source
         /\ ((Forall (reports_no_match (slice k source)) types
              /\ e = Tokenizer.undefined_token (slice k source))
             \/ exists d, In d types
                  /\ Tokenizer.attempt (tmatcher d) (slice k source) = Throw e)
     end.
Proof.
  induction 1 as [i buf EOF|i buf e j Hi R|i buf Token j r k buf' Hi R F IH];
    intros Hle.
  - split; [lia|]. split; [|lia]. exists []. left. simpl.
    now rewrite app_nil_r.
  - apply reads_facts in R; [|lia]. destruct R as (R1 & R2 & R3).
    split; [lia|]. split; [|auto]. exists []. left. simpl.
    now rewrite app_nil_r.
  - apply reads_facts in R; [|lia]. destruct R as (R1 & R2).
    destruct IH as (K & (ts & S) & Q); [lia|].
    split; [exact K|]. split; [|exact Q].
    destruct Token as [t|].
    + exists (t :: ts). simpl.
      destruct S as [S|[S ->]]; rewrite S, <- app_assoc; simpl; auto.
    + inversion F; subst; try lia.
      exists []. right. simpl. auto.
Qed.

(** ** What [initialize] leaves behind *)

Lemma initialize_fills source T0 r T' :
  Tokenizer.initialize source T0 = Some (r, T') ->
  fills (Tokenizer.TokenTypes T0) source 0 [] r (Tokenizer.index T')
        (Tokenizer.lookaheadBuffer T')
  /\ Tokenizer.TokenTypes T' = Tokenizer.TokenTypes T0
  /\ Tokenizer.buffer T' = source
  /\ Tokenizer.lookaheadIndex T' = 0.
Proof.
  unfold Tokenizer.initialize. intros H. apply fill_fills in H. exact H.
Qed.

(** X4.  When [initialize(source)] returns without an error, the whole
    source has been consumed, the read cursor is at the start, the
    registry is as before, and the lookahead buffer holds tokens with
    non-empty values and types and after them at most one [null] (the
    mark a final discard leaves); for the empty source it is empty. *)
Theorem initialize_consumes_source
    (source : string) (T0 T' : Tokenizer.t) :
  Tokenizer.initialize source T0 = Some (Ok tt, T') ->
  Tokenizer.index T' = String.length source
  /\ Tokenizer.buffer T' = source
  /\ Tokenizer.lookaheadIndex T' = 0
  /\ Tokenizer.TokenTypes T' = Tokenizer.TokenTypes T0
  /\ (exists ts, built (Tokenizer.lookaheadBuffer T') ts)
  /\ valued (Tokenizer.lookaheadBuffer T')
  /\ (source = EmptyString -> Tokenizer.lookaheadBuffer T' = []).
Proof.
  intros H.
  destruct (initialize_total source T0) as (r & T & I & _ & _ & _ & V).
  rewrite H in I. injection I as <- <-.
  apply initialize_fills in H. destruct H as (F & H1 & H2 & H3).
  pose proof (fills_facts _ _ _ _ _ _ _ F (Nat.le_0_l _)) as (_ & (ts & S) & K).
  repeat split; auto.
  - exists ts. unfold built. simpl in S. destruct S as [S|[S _]]; auto.
  - intros ->. inversion F; subst; simpl in *; auto; lia.
Qed.

Lemma initialize_consumes_source_witness :
  Tokenizer.index (tokenizer (two_lines 0))
  = String.length ("1" ++ newline ++ "2")
  /\ Tokenizer.buffer (tokenizer (two_lines 0)) = "1" ++ newline ++ "2"
  /\ Tokenizer.lookaheadIndex (tokenizer (two_lines 0)) = 0
  /\ Tokenizer.TokenTypes (tokenizer (two_lines 0))
     = Tokenizer.TokenTypes (tokenizer (registered [NUMBER; SEMICOLON; NEWLINE]))
  /\ (exists ts, built (Tokenizer.lookaheadBuffer (tokenizer (two_lines 0))) ts)
  /\ valued (Tokenizer.lookaheadBuffer (tokenizer (two_lines 0)))
  /\ ("1" ++ newline ++ "2" = EmptyString ->
      Tokenizer.lookaheadBuffer (tokenizer (two_lines 0)) = []).
Proof.
  apply (initialize_consumes_source ("1" ++ newline ++ "2")
           (tokenizer (registered [NUMBER; SEMICOLON; NEWLINE]))
           (tokenizer (two_lines 0))).
  reflexivity.
Defined.

(** X5.  When [initialize(source)] throws, the source position it leaves
    is inside the source, at the start of a rest on which either no token
    type reports a match (the error is [Undefined Token] with that rest)
    or the matcher of a registered type has thrown the error; with fixed
    patterns only it is always the former.  The buffer holds the tokens
    read before that position and no [null], and the cursor is at the
    start. *)
Theorem initialize_failure
    (source : string) (T0 T' : Tokenizer.t) (e : error) :
  Tokenizer.initialize source T0 = Some (Throw e, T') ->
  let rest := slice (Tokenizer.index T') source in
  Tokenizer.index T' < String.length source
  /\ rest <> EmptyString
  /\ ((Forall (reports_no_match rest) (Tokenizer.TokenTypes T0)
       /\ e = Tokenizer.undefined_token rest)
      \/ exists d, In d (Tokenizer.TokenTypes T0)
           /\ Tokenizer.attempt (tmatcher d) rest = Throw e)
  /\ ((forall d, In d (Tokenizer.TokenTypes T0) ->
         exists re, tmatcher d = RegExpObj re) ->
      e = Tokenizer.undefined_token rest)
  /\ (exists ts, Tokenizer.lookaheadBuffer T' = map Some ts)
  /\ Tokenizer.lookaheadIndex T' = 0.
Proof.
  intros H rest. apply initialize_fills in H. destruct H as (F & H1 & H2 & H3).
  pose proof (fills_facts _ _ _ _ _ _ _ F (Nat.le_0_l _))
    as (_ & (ts & S) & K & D).
  fold rest in D.
  split; [exact K|]. split; [|split; [exact D|split; [|split; [|exact H3]]]].
  - intros E. pose proof (length_slice source (Tokenizer.index T')) as L.
    fold rest in L. rewrite E in L. simpl in L. lia.
  - intros Hre. destruct D as [[_ D]|(d & Hd & A)]; [exact D|].
    destruct (Hre d Hd) as [re Hm]. rewrite Hm in A. discriminate.
  - exists ts. destruct S as [S|[_ S]]; [exact S | discriminate].
Qed.

Lemma initialize_failure_witness :
  let T' := Tokenizer.mk [NUMBER] "5x" 1 [Some (mkToken "NUMBER" "5" false)] 0 in
  let rest := slice (Tokenizer.index T') "5x" in
  Tokenizer.index T' < String.length "5x"
  /\ rest <> EmptyString
  /\ ((Forall (reports_no_match rest) [NUMBER]
       /\ Tokenizer.undefined_token "x" = Tokenizer.undefined_token rest)
      \/ exists d, In d [NUMBER]
           /\ Tokenizer.attempt (tmatcher d) rest
              = Throw (Tokenizer.undefined_token "x"))
  /\ ((forall d, In d [NUMBER] -> exists re, tmatcher d = RegExpObj re) ->
      Tokenizer.undefined_token "x" = Tokenizer.undefined_token rest)
  /\ (exists ts, Tokenizer.lookaheadBuffer T' = map Some ts)
  /\ Tokenizer.lookaheadIndex T' = 0.
Proof.
  apply (initialize_failure "5x" (tokenizer (registered [NUMBER]))
           (Tokenizer.mk [NUMBER] "5x" 1
              [Some (mkToken "NUMBER" "5" false)] 0)
           (Tokenizer.undefined_token "x")).
  reflexivity.
Defined.

(** ** Tokens of anchored patterns spell the source *)

Lemma string_app_assoc (a b c : string) : (a ++ b) ++ c = a ++ (b ++ c).
Proof. induction a as [|x a IH]; simpl; [reflexivity | now rewrite IH]. Qed.

Lemma string_app_nil_r (a : string) : a ++ EmptyString = a.
Proof. induction a as [|x a IH]; simpl; [reflexivity | now rewrite IH]. Qed.

Lemma slice_past_end (s : string) (n : nat) :
  String.length s <= n -> slice n s = EmptyString.
Proof.
  intros H. pose proof (length_slice s n) as L.
  destruct (slice n s); [reflexivity | simpl in L; lia].
Qed.

Lemma prefix_split (s : string) :
  forall n, substring 0 n s ++ slice (String.length (substring 0 n s)) s = s.
Proof.
  induction s as [|c s IH]; intros [|n]; simpl; auto.
  f_equal. apply IH.
Qed.

(** A named type with an anchored pattern that reports a match emits a
    token, whose value is the start of the input and as long as the
    match. *)
Lemma lexical_emits INPUT d v l :
  lexical d -> reports_match INPUT d v l ->
  exists t, Tokenizer.emitted d v = Some t
            /\ INPUT = value t ++ slice l INPUT.
Proof.
  intros (Hn & re & Hm & Ha) [A N]. unfold Tokenizer.attempt in A.
  rewrite Hm in A. unfold string_match in A.
  destruct (exec re INPUT) as [[i n]|] eqn:E.
  - pose proof (Ha _ _ _ E) as ->. injection A as <- <-.
    assert (truthy (Some (substring 0 n INPUT)) = true) as Tv.
    { unfold Tokenizer.no_match in N.
      destruct (substring 0 n INPUT); [discriminate | reflexivity]. }
    unfold Tokenizer.emitted.
    destruct (name d) as [nm|]; [|discriminate].
    rewrite Hn, Tv. simpl. eexists; split; [reflexivity|]. simpl.
    symmetry. apply prefix_split.
  - injection A as <- <-. discriminate.
Qed.

Lemma reads_lexical types source i r j :
  Forall lexical types ->
  reads types source i r j ->
  match r with
  | Ok (Some t) => slice i source = value t ++ slice j source
  | Ok None => False
  | Throw e => j = i /\ e = Tokenizer.undefined_token (slice i source)
  end.
Proof.
  intros L.
  assert (forall pre d post, types = (pre ++ d :: post)%list -> lexical d)
    as Hin.
  { intros pre d post ->. rewrite Forall_forall in L. apply L, in_elt. }
  induction 1 as [i F|i pre d post e E F A|i pre d post v l t E F RM Em
                  |i pre d post v l E F RM Em EOF
                  |i pre d post v l r j E F RM Em EOF R IH].
  - auto.
  - destruct (Hin _ _ _ E) as (_ & re & Hm & _). rewrite Hm in A.
    discriminate.
  - destruct (lexical_emits _ _ _ _ (Hin _ _ _ E) RM) as (t' & Em' & S).
    rewrite Em in Em'. injection Em' as <-.
    rewrite slice_slice in S. exact S.
  - destruct (lexical_emits _ _ _ _ (Hin _ _ _ E) RM) as (t' & Em' & _).
    congruence.
  - destruct (lexical_emits _ _ _ _ (Hin _ _ _ E) RM) as (t' & Em' & _).
    congruence.
Qed.

Lemma fills_lexical types source i buf r k buf' :
  Forall lexical types ->
  fills types source i buf r k buf' ->
  exists ts, buf' = (buf ++ map Some ts)%list
             /\ slice i source = values ts ++ slice k source.
Proof.
  intros L.
  induction 1 as [i buf EOF|i buf e j Hi R|i buf Token j r k buf' Hi R F IH].
  - exists []. simpl. now rewrite app_nil_r.
  - apply (reads_lexical _ _ _ _ _ L) in R. destruct R as [-> _].
    exists []. simpl. now rewrite app_nil_r.
  - apply (reads_lexical _ _ _ _ _ L) in R.
    destruct Token as [t|]; [|contradiction].
    destruct IH as (ts & -> & S).
    exists (t :: ts). simpl. rewrite <- app_assoc. split; [reflexivity|].
    rewrite R, S, string_app_assoc. reflexivity.
Qed.

(** X6.  When every registered token type has a name and an anchored
    fixed pattern, nothing of the source is lost: the buffer
    [initialize(source)] leaves holds tokens only, and their values, one
    after the other, followed by the rest of the source from the position
    reached, spell the source; when it returns without an error the
    values alone do. *)
Theorem anchored_tokens_spell_source
    (source : string) (T0 T' : Tokenizer.t) (r : outcome unit) :
  Forall lexical (Tokenizer.TokenTypes T0) ->
  Tokenizer.initialize source T0 = Some (r, T') ->
  exists ts,
    Tokenizer.lookaheadBuffer T' = map Some ts
    /\ values ts ++ slice (Tokenizer.index T') source = source
    /\ (r = Ok tt -> values ts = source).
Proof.
  intros L H. apply initialize_fills in H. destruct H as (F & _).
  pose proof (fills_facts _ _ _ _ _ _ _ F (Nat.le_0_l _)) as (_ & _ & K).
  destruct (fills_lexical _ _ _ _ _ _ _ L F) as (ts & B & S).
  exists ts. simpl in B, S. split; [exact B|]. split; [congruence|].
  intros ->.
  transitivity (values ts ++ slice (Tokenizer.index T') source);
    [|congruence].
  rewrite slice_past_end by lia. now rewrite string_app_nil_r.
Qed.

Lemma NUMBER_lexical : lexical NUMBER.
Proof.
  split; [reflexivity|]. exists (re_plus true is_digit).
  split; [reflexivity | apply re_plus_anchored].
Defined.

Lemma SEMICOLON_lexical : lexical SEMICOLON.
Proof.
  split; [reflexivity|]. exists (re_one true (is_char ";")).
  split; [reflexivity | apply re_one_anchored].
Defined.

Lemma NEWLINE_lexical : lexical NEWLINE.
Proof.
  split; [reflexivity|]. exists (re_plus true is_newline).
  split; [reflexivity | apply re_plus_anchored].
Defined.

Lemma anchored_tokens_spell_source_witness :
  exists ts,
    Tokenizer.lookaheadBuffer (tokenizer (two_lines 0)) = map Some ts
    /\ values ts ++ slice (Tokenizer.index (tokenizer (two_lines 0)))
                      ("1" ++ newline ++ "2")
       = "1" ++ newline ++ "2"
    /\ (Ok tt = Ok tt -> values ts = "1" ++ newline ++ "2").
Proof.
  apply (anchored_tokens_spell_source ("1" ++ newline ++ "2")
           (tokenizer (registered [NUMBER; SEMICOLON; NEWLINE]))
           (tokenizer (two_lines 0)) (Ok tt)).
  - repeat constructor;
      [apply NUMBER_lexical | apply SEMICOLON_lexical | apply NEWLINE_lexical].
  - reflexivity.
Defined.

(** ** [peek], [isEOF] and [read] on a buffer built by [initialize] *)

Lemma peekToken_built T ts offset :
  built (Tokenizer.lookaheadBuffer T) ts ->
  (0 <= Z.of_nat (Tokenizer.lookaheadIndex T) + offset)%Z ->
  Tokenizer.peekToken offset T
  = nth_error ts (Z.to_nat (Z.of_nat (Tokenizer.lookaheadIndex T) + offset)).
Proof.
  intros B H. unfold Tokenizer.peekToken, array_get.
  replace (Z.of_nat (Tokenizer.lookaheadIndex T) + offset <? 0)%Z with false
    by (symmetry; apply Z.ltb_ge; exact H).
  set (n := Z.to_nat (Z.of_nat (Tokenizer.lookaheadIndex T) + offset)).
  destruct B as [-> | ->].
  - rewrite nth_error_map. destruct (nth_error ts n); reflexivity.
  - destruct (Nat.lt_ge_cases n (List.length (map Some ts))) as [L|L].
    + rewrite nth_error_app1 by exact L. rewrite nth_error_map.
      destruct (nth_error ts n); reflexivity.
    + rewrite nth_error_app2 by exact L. rewrite length_map in L.
      replace (nth_error ts n) with (@None Token)
        by (symmetry; apply nth_error_None; exact L).
      destruct (n - List.length (map Some ts)) as [|[|m]]; reflexivity.
Qed.

(** In a list of tokens, the first visible one comes after a run of
    hidden ones. *)
Lemma find_visible_run (l : list Token) :
  exists k,
    (forall j, j < k -> exists t, nth_error l j = Some t /\ hidden t = true)
    /\ is_hidden (nth_error l k) = false
    /\ nth_error l k = find visible l.
Proof.
  induction l as [|t l (k & H1 & H2 & H3)].
  - exists 0. repeat split. intros j Hj; lia.
  - destruct (hidden t) eqn:Ht.
    + exists (S k). simpl. unfold visible at 1. rewrite Ht. simpl.
      repeat split; auto.
      intros [|j] Hj; [exists t; auto | apply H1; lia].
    + exists 0. simpl. unfold visible. rewrite Ht. simpl.
      repeat split; auto. intros j Hj; lia.
Qed.

Lemma peek_built A ts offset :
  parsing A = true ->
  built (Tokenizer.lookaheadBuffer (tokenizer A)) ts ->
  (0 <= Z.of_nat (Tokenizer.lookaheadIndex (tokenizer A)) + offset)%Z ->
  peek offset A
  = (Ok (find visible
           (skipn (Z.to_nat (Z.of_nat (Tokenizer.lookaheadIndex (tokenizer A))
                             + offset)) ts)), A).
Proof.
  intros P B H.
  set (p := Z.to_nat (Z.of_nat (Tokenizer.lookaheadIndex (tokenizer A))
                      + offset)).
  destruct (find_visible_run (skipn p ts)) as (k & H1 & H2 & H3).
  assert (forall j : nat,
            Tokenizer.peekToken (offset + Z.of_nat j) (tokenizer A)
            = nth_error (skipn p ts) j) as Slot.
  { intros j. rewrite (peekToken_built _ ts) by (auto; lia).
    rewrite nth_error_skipn. f_equal. unfold p. lia. }
  rewrite (peek_at_walk_end A offset k P).
  - rewrite Slot, H3. reflexivity.
  - split.
    + intros j Hj. rewrite Slot. destruct (H1 j Hj) as (t & -> & Ht).
      exact Ht.
    + rewrite Slot. exact H2.
Qed.

(** X7.  On a buffer as [initialize] builds it (tokens, then at most one
    [null]), [peek(offset)] at a slot that is not before the start of the
    buffer returns the first token that is not hidden among the tokens
    from that slot on, and nothing when there is none; the facade stays
    as it is. *)
Theorem peek_finds_first_visible
    (A : Anatomize) (ts : list Token) (offset : Z) :
  parsing A = true ->
  built (Tokenizer.lookaheadBuffer (tokenizer A)) ts ->
  (0 <= Z.of_nat (Tokenizer.lookaheadIndex (tokenizer A)) + offset)%Z ->
  peek offset A
  = (Ok (find visible
           (skipn (Z.to_nat (Z.of_nat (Tokenizer.lookaheadIndex (tokenizer A))
                             + offset)) ts)), A).
Proof. apply peek_built. Qed.

Lemma peek_finds_first_visible_witness :
  peek 1 (two_lines 0)
  = (Ok (find visible
           (skipn (Z.to_nat
                     (Z.of_nat (Tokenizer.lookaheadIndex (tokenizer (two_lines 0)))
                      + 1)) [tok_one; tok_newline; tok_two])), two_lines 0).
Proof.
  apply (peek_finds_first_visible (two_lines 0)
           [tok_one; tok_newline; tok_two] 1).
  - reflexivity.
  - left. reflexivity.
  - simpl. lia.
Defined.

Lemma find_visible_forallb (l : list Token) :
  match find visible l with Some _ => false | None => true end
  = forallb hidden l.
Proof.
  induction l as [|t l IH]; simpl; [reflexivity|].
  unfold visible at 1. destruct (hidden t); simpl; auto.
Qed.

(** X8.  On a buffer as [initialize] builds it, [isEOF()] is true exactly
    when every token from the read cursor on is hidden (in particular
    when none is left), and [isPeekType(T, offset)] is true exactly when
    the first visible token from the offset on has type [T]; neither
    changes the facade. *)
Theorem isEOF_when_only_hidden_left
    (A : Anatomize) (ts : list Token) (tokenType : string) (offset : Z) :
  parsing A = true ->
  built (Tokenizer.lookaheadBuffer (tokenizer A)) ts ->
  isEOF A
  = (Ok (forallb hidden (skipn (Tokenizer.lookaheadIndex (tokenizer A)) ts)),
     A)
  /\ ((0 <= Z.of_nat (Tokenizer.lookaheadIndex (tokenizer A)) + offset)%Z ->
      isPeekType tokenType offset A
      = (Ok (match find visible
                     (skipn (Z.to_nat
                               (Z.of_nat (Tokenizer.lookaheadIndex (tokenizer A))
                                + offset)) ts) with
             | Some t => String.eqb (type t) tokenType
             | None => false
             end), A)).
Proof.
  intros P B. split.
  - rewrite (isEOF_unfold A P). rewrite (peek_built A ts 0 P B) by lia.
    rewrite Z.add_0_r, Nat2Z.id, find_visible_forallb. reflexivity.
  - intros H. unfold isPeekType, bind.
    rewrite (peek_built A ts offset P B H). reflexivity.
Qed.

Lemma isEOF_when_only_hidden_left_witness :
  isEOF (two_lines 1) = (Ok false, two_lines 1)
  /\ isEOF lone_newline = (Ok true, lone_newline).
Proof.
  split.
  - apply (proj1 (isEOF_when_only_hidden_left (two_lines 1)
                    [tok_one; tok_newline; tok_two] ";" 0
                    eq_refl (or_introl eq_refl))).
  - apply (proj1 (isEOF_when_only_hidden_left lone_newline
                    [tok_newline] ";" 0 eq_refl (or_introl eq_refl))).
Defined.

Lemma read_on_0 A : read_on 0 A = A.
Proof. unfold read_on. rewrite consumed_0. destruct A; reflexivity. Qed.

Lemma read_on_read_on n m A : read_on n (read_on m A) = read_on (m + n) A.
Proof. unfold read_on, set_tokenizer. simpl. now rewrite consumed_consumed. Qed.

(** One round of [read] with a token at the cursor. *)
Lemma read_step A tokenType t :
  parsing A = true ->
  Tokenizer.peekToken 0 (tokenizer A) = Some t ->
  read tokenType A
  = if hidden t && negb (String.eqb (type t) tokenType)
    then read tokenType (read_on 1 A)
    else if negb (String.eqb (type t) tokenType)
         then (Throw (unexpected_token tokenType (type t)), read_on 1 A)
         else (Ok t, read_on 1 A).
Proof.
  intros P H.
  assert (Tokenizer.lookaheadIndex (tokenizer A)
          < List.length (Tokenizer.lookaheadBuffer (tokenizer A))) as L.
  { apply peekToken_some in H. destruct H as (i & Hi & N).
    assert (i < List.length (Tokenizer.lookaheadBuffer (tokenizer A)))
      by (apply nth_error_Some; congruence).
    lia. }
  rewrite (read_unfold A tokenType P), (read_loop_step _ _ L), H. simpl.
  destruct (hidden t && negb (String.eqb (type t) tokenType)); auto.
  rewrite (read_unfold (read_on 1 A) tokenType P). reflexivity.
Qed.

(** [read] with nothing at the cursor: the end of the buffer or a
    [null], which it steps over. *)
Lemma read_nothing A tokenType :
  parsing A = true ->
  Tokenizer.peekToken 0 (tokenizer A) = None ->
  exists n, n <= 1 /\ read tokenType A = (Throw end_of_input, read_on n A).
Proof.
  intros P H. rewrite (read_unfold A tokenType P).
  destruct (le_lt_dec (List.length (Tokenizer.lookaheadBuffer (tokenizer A)))
              (Tokenizer.lookaheadIndex (tokenizer A))) as [L|L].
  - rewrite read_loop_end by exact L. exists 0. rewrite read_on_0.
    split; [lia | destruct A; reflexivity].
  - rewrite read_loop_step by exact L. rewrite H. simpl. exists 1.
    split; [lia | reflexivity].
Qed.

Lemma skipn_uncons (ts : list Token) :
  forall c t l, skipn c ts = t :: l ->
                nth_error ts c = Some t /\ skipn (S c) ts = l.
Proof.
  induction ts as [|x ts IH]; intros [|c] t l H; simpl in *;
    try discriminate.
  - injection H as -> ->. auto.
  - apply IH. exact H.
Qed.

Lemma read_built ts tokenType :
  forall l A,
  parsing A = true ->
  built (Tokenizer.lookaheadBuffer (tokenizer A)) ts ->
  skipn (Tokenizer.lookaheadIndex (tokenizer A)) ts = l ->
  match skip_hidden tokenType l with
  | t :: rest =>
      exists k,
        read tokenType A
        = ((if String.eqb (type t) tokenType then Ok t
            else Throw (unexpected_token tokenType (type t))),
           read_on (S k) A)
        /\ skipn (Tokenizer.lookaheadIndex (tokenizer A) + S k) ts = rest
  | [] =>
      exists n,
        read tokenType A = (Throw end_of_input, read_on n A)
        /\ List.length ts <= Tokenizer.lookaheadIndex (tokenizer A) + n
  end.
Proof.
  induction l as [|t l IH]; intros A P B E.
  - simpl.
    assert (Tokenizer.peekToken 0 (tokenizer A) = None) as N.
    { rewrite (peekToken_built _ ts) by (auto; lia).
      rewrite Z.add_0_r, Nat2Z.id, <- hd_error_skipn, E. reflexivity. }
    destruct (read_nothing A tokenType P N) as (n & _ & R).
    exists n. split; [exact R|].
    assert (List.length (skipn (Tokenizer.lookaheadIndex (tokenizer A)) ts) = 0)
      as L by (rewrite E; reflexivity).
    rewrite length_skipn in L. lia.
  - apply skipn_uncons in E. destruct E as [E1 E2].
    assert (Tokenizer.peekToken 0 (tokenizer A) = Some t) as N.
    { rewrite (peekToken_built _ ts) by (auto; lia).
      rewrite Z.add_0_r, Nat2Z.id. exact E1. }
    rewrite (read_step A tokenType t P N). simpl.
    destruct (hidden t && negb (String.eqb (type t) tokenType)) eqn:C.
    + specialize (IH (read_on 1 A) P B).
      simpl in IH. rewrite Nat.add_1_r in IH. specialize (IH E2).
      destruct (skip_hidden tokenType l) as [|t' rest].
      * destruct IH as (n & R & L). exists (1 + n).
        rewrite R, read_on_read_on. split; [reflexivity | lia].
      * destruct IH as (k & R & L). exists (1 + k).
        rewrite R, read_on_read_on. split; [reflexivity|].
        rewrite <- L. f_equal. lia.
    + exists 0. rewrite Nat.add_1_r. split; [|exact E2].
      destruct (String.eqb (type t) tokenType); reflexivity.
Qed.

(** X9.  On a buffer as [initialize] builds it, [read(T)] is decided by
    the tokens from the read cursor on with the leading hidden tokens of
    other types than [T] dropped: if none is left it throws the
    end-of-input error; otherwise it looks at the first one left, returns
    it when its type is [T] and throws the wrong-token error naming its
    type when not; in both cases the cursor is left right behind that
    token. *)
Theorem read_decided_by_first_unskipped
    (A : Anatomize) (ts : list Token) (tokenType : string) :
  parsing A = true ->
  built (Tokenizer.lookaheadBuffer (tokenizer A)) ts ->
  match skip_hidden tokenType
          (skipn (Tokenizer.lookaheadIndex (tokenizer A)) ts) with
  | t :: rest =>
      exists k,
        read tokenType A
        = ((if String.eqb (type t) tokenType then Ok t
            else Throw (unexpected_token tokenType (type t))),
           read_on (S k) A)
        /\ skipn (Tokenizer.lookaheadIndex (tokenizer A) + S k) ts = rest
  | [] =>
      exists n,
        read tokenType A = (Throw end_of_input, read_on n A)
        /\ List.length ts <= Tokenizer.lookaheadIndex (tokenizer A) + n
  end.
Proof. intros P B. apply (read_built ts tokenType _ A P B eq_refl). Qed.

Lemma read_decided_by_first_unskipped_witness :
  exists k,
    read "NUMBER" (two_lines 1)
    = ((if String.eqb (type tok_two) "NUMBER" then Ok tok_two
        else Throw (unexpected_token "NUMBER" (type tok_two))),
       read_on (S k) (two_lines 1))
    /\ skipn (Tokenizer.lookaheadIndex (tokenizer (two_lines 1)) + S k)
         [tok_one; tok_newline; tok_two] = [].
Proof.
  apply (read_decided_by_first_unskipped (two_lines 1)
           [tok_one; tok_newline; tok_two] "NUMBER").
  - reflexivity.
  - left. reflexivity.
Defined.

(** ** What [read] keeps *)

Lemma read_loop_moves tokenType n :
  forall T r T',
  ahead T = n ->
  read_loop n tokenType T = (r, T') ->
  exists k,
    T' = consumed k T
    /\ (Tokenizer.lookaheadIndex T <= List.length (Tokenizer.lookaheadBuffer T) ->
        Tokenizer.lookaheadIndex T + k <= List.length (Tokenizer.lookaheadBuffer T))
    /\ (forall t, r = Ok (Some t) -> 1 <= k).
Proof.
  induction n as [|n IH]; intros T r T' Hn H.
  - assert (List.length (Tokenizer.lookaheadBuffer T)
            <= Tokenizer.lookaheadIndex T) as L by (unfold ahead in Hn; lia).
    rewrite <- Hn, (read_loop_end T tokenType L) in H.
    injection H as <- <-. exists 0. rewrite consumed_0.
    repeat split; [lia | discriminate].
  - assert (Tokenizer.lookaheadIndex T
            < List.length (Tokenizer.lookaheadBuffer T)) as L
      by (unfold ahead in Hn; lia).
    rewrite <- Hn, (read_loop_step T tokenType L) in H.
    destruct (is_hidden (Tokenizer.peekToken 0 T)
              && type_differs (Tokenizer.peekToken 0 T) tokenType).
    + assert (ahead (consumed 1 T) = n) as Hn'
        by (rewrite (ahead_inside T L) in Hn; lia).
      rewrite Hn' in H. apply IH in H; [|exact Hn'].
      destruct H as (k & -> & B & _). exists (1 + k).
      rewrite consumed_consumed. split; [reflexivity|].
      simpl in B. split; [intros _; lia | intros; lia].
    + injection H as <- <-. exists 1. repeat split; lia.
Qed.

(** X10.  Whatever [read(T)] does, it touches nothing of the facade but
    the read cursor: the registry, the source and its position, the
    lookahead buffer and the parsing flag stay.  The cursor never moves
    back and never past the end of the buffer, it moves by at least one
    when a token is returned, and it does not move at all when [read] is
    refused outside of [parse]. *)
Theorem read_only_moves_cursor
    (A A' : Anatomize) (tokenType : string) (r : outcome Token) :
  read tokenType A = (r, A') ->
  exists k,
    A' = read_on k A
    /\ (Tokenizer.lookaheadIndex (tokenizer A)
        <= List.length (Tokenizer.lookaheadBuffer (tokenizer A)) ->
        Tokenizer.lookaheadIndex (tokenizer A')
        <= List.length (Tokenizer.lookaheadBuffer (tokenizer A')))
    /\ (forall t, r = Ok t -> 1 <= k)
    /\ (parsing A = false -> k = 0).
Proof.
  intros H. destruct (parsing A) eqn:P.
  - rewrite (read_unfold A tokenType P) in H.
    destruct (read_loop (ahead (tokenizer A)) tokenType (tokenizer A))
      as [r0 T] eqn:R.
    destruct (read_loop_moves tokenType _ _ _ _ eq_refl R) as (k & -> & B & K).
    exists k.
    assert (forall t, r0 = Ok (Some t) -> 1 <= k) as K' by exact K.
    destruct r0 as [[t|]|e]; simpl in H;
      [destruct (negb (String.eqb (type t) tokenType))|..];
      injection H as <- <-;
      (split; [reflexivity|]); (split; [exact B|]);
      (split; [|discriminate]); intros t0 E; try discriminate.
    apply (K' t eq_refl).
  - unfold read, bind, errorIfNotParsing in H. rewrite P in H. simpl in H.
    injection H as <- <-. exists 0. rewrite read_on_0.
    repeat split; auto. discriminate.
Qed.

Lemma read_only_moves_cursor_witness :
  exists k,
    two_lines 3 = read_on k (two_lines 1)
    /\ (Tokenizer.lookaheadIndex (tokenizer (two_lines 1))
        <= List.length (Tokenizer.lookaheadBuffer (tokenizer (two_lines 1))) ->
        Tokenizer.lookaheadIndex (tokenizer (two_lines 3))
        <= List.length (Tokenizer.lookaheadBuffer (tokenizer (two_lines 3))))
    /\ (forall t, Ok tok_two = Ok t -> 1 <= k)
    /\ (parsing (two_lines 1) = false -> k = 0).
Proof.
  apply (read_only_moves_cursor (two_lines 1) (two_lines 3) "NUMBER"
           (Ok tok_two)).
  reflexivity.
Defined.

(** ** Registration *)

Lemma with_types_nil A : with_types [] A = A.
Proof.
  unfold with_types, set_tokenizer. rewrite app_nil_r.
  destruct A as [[tt b i lb li] p]. reflexivity.
Qed.

Lemma with_types_app ds ds' A :
  with_types ds' (with_types ds A) = with_types (ds ++ ds') A.
Proof. unfold with_types, set_tokenizer. simpl. now rewrite app_assoc. Qed.

Lemma register_one d A :
  parsing A = false -> register d A = (Ok tt, with_types [d] A).
Proof.
  intros P. destruct d as [n [p|re] [|]];
    unfold register, registerToken, registerHiddenToken, addTokenType, bind,
      errorIfParsing; simpl; rewrite P; reflexivity.
Qed.

(** X11.  Outside of [parse], a registration with a function or a
    [RegExp] puts one token type at the end of the registry and changes
    nothing else, so a series of registrations leaves the registry in
    the order of the calls: on a new facade, registering the types [ds]
    one by one gives the facade whose registry is [ds].  A registration
    with anything else throws the [TypeError] naming its [typeof] and
    leaves the facade as it was. *)
Theorem registration_appends (A : Anatomize) (ds : list TokenType) :
  parsing A = false ->
  register_all ds A = (Ok tt, with_types ds A)
  /\ Tokenizer.TokenTypes (tokenizer (with_types ds A))
     = (Tokenizer.TokenTypes (tokenizer A) ++ ds)%list
  /\ (A = create -> with_types ds A = registered ds)
  /\ forall n typeof h,
       addTokenType n (AOther typeof) h A
       = (Throw (TypeError
                   ("Unexpected Type of Matcher; Expected " ++ dquote
                    ++ "function" ++ dquote ++ " or RegExp, got " ++ dquote
                    ++ typeof ++ dquote)), A).
Proof.
  intros P. split; [|split; [reflexivity|split]].
  - revert A P. induction ds as [|d ds IH]; intros A P; simpl.
    + unfold ret. now rewrite with_types_nil.
    + unfold bind. rewrite (register_one d A P).
      rewrite (IH (with_types [d] A) P), with_types_app. reflexivity.
  - intros ->. reflexivity.
  - intros n typeof h. unfold addTokenType, bind, errorIfParsing.
    rewrite P. reflexivity.
Qed.

Lemma registration_appends_witness :
  register_all [NUMBER; SEMICOLON; NEWLINE] create
  = (Ok tt, registered [NUMBER; SEMICOLON; NEWLINE]).
Proof.
  destruct (registration_appends create [NUMBER; SEMICOLON; NEWLINE] eq_refl)
    as (H & _ & E & _).
  rewrite H, (E eq_refl). reflexivity.
Defined.

(** ** [parse], call after call *)

(** X12.  [parse] returns for every source, whatever the state of the
    facade; and outside of [parse] what it does depends on the facade
    through the registry alone: the source, its position, the buffer and
    the cursor of an earlier [parse] play no part. *)
Theorem parse_depends_on_registry_only
    (R : Type) (main : M Anatomize R) (source : string) (A B : Anatomize) :
  (exists r A', parse main source A = Some (r, A'))
  /\ (parsing A = false -> parsing B = false ->
      Tokenizer.TokenTypes (tokenizer A) = Tokenizer.TokenTypes (tokenizer B) ->
      parse main source A = parse main source B).
Proof.
  split.
  - unfold parse, errorIfParsing. destruct (parsing A); [eauto|].
    destruct (initialize_total source (tokenizer (set_parsing true A)))
      as (r & T & I & _).
    rewrite I. destruct r as [[]|e]; [|eauto].
    destruct (main _) as [r A2]. eauto.
  - intros PA PB E. unfold parse, errorIfParsing. rewrite PA, PB.
    unfold Tokenizer.initialize, set_parsing, set_tokenizer. simpl.
    rewrite E. reflexivity.
Qed.

Lemma parse_depends_on_registry_only_witness :
  parse (read "NUMBER") "5" (set_parsing false (two_lines 2))
  = parse (read "NUMBER") "5" (registered [NUMBER; SEMICOLON; NEWLINE]).
Proof.
  apply (proj2 (parse_depends_on_registry_only Token (read "NUMBER") "5"
                  (set_parsing false (two_lines 2))
                  (registered [NUMBER; SEMICOLON; NEWLINE])));
    reflexivity.
Defined.

(** X13.  Version 1.0.0 of [parse] and this one agree when the source
    tokenizes and the main function returns: both hand the main function
    the freshly tokenized facade in parsing mode and return its result
    with the flag unset.  They differ on failures.  When the main
    function throws, this version unsets the flag and 1.0.0 leaves the
    facade as the main function left it; when the tokenizer throws, 1.0.0
    has not set the flag yet and this version has. *)
Theorem parse_versions
    (R : Type) (main : M Anatomize R) (source : string) (A : Anatomize) :
  parsing A = false ->
  (forall T, Tokenizer.initialize source (tokenizer A) = Some (Ok tt, T) ->
     (forall RESULT A1, main (mkAnatomize T true) = (Ok RESULT, A1) ->
        parse main source A = Some (Ok RESULT, set_parsing false A1)
        /\ parse_v1_0_0 main source A = Some (Ok RESULT, set_parsing false A1))
     /\ (forall e A1, main (mkAnatomize T true) = (Throw e, A1) ->
           parse main source A = Some (Throw e, set_parsing false A1)
           /\ parse_v1_0_0 main source A = Some (Throw e, A1)))
  /\ (forall T e,
        Tokenizer.initialize source (tokenizer A) = Some (Throw e, T) ->
        parse main source A = Some (Throw e, mkAnatomize T true)
        /\ parse_v1_0_0 main source A = Some (Throw e, mkAnatomize T false)).
Proof.
  intros P. split.
  - intros T I.
    assert (set_tokenizer T (set_parsing true A) = mkAnatomize T true) as E1
      by reflexivity.
    assert (set_parsing true (set_tokenizer T A) = mkAnatomize T true) as E2
      by reflexivity.
    split; intros x A1 Hm;
      unfold parse, parse_v1_0_0, errorIfParsing; rewrite P; simpl;
      rewrite I, E1, E2, Hm; auto.
  - intros T e I. unfold parse, parse_v1_0_0, errorIfParsing. rewrite P.
    simpl. rewrite I. unfold set_tokenizer. simpl. rewrite P. auto.
Qed.

Lemma parse_versions_witness :
  parse (read "STRING") "x" (registered [NUMBER])
  = Some (Throw (Tokenizer.undefined_token "x"),
          mkAnatomize (Tokenizer.mk [NUMBER] "x" 0 [] 0) true)
  /\ parse_v1_0_0 (read "STRING") "x" (registered [NUMBER])
     = Some (Throw (Tokenizer.undefined_token "x"),
             mkAnatomize (Tokenizer.mk [NUMBER] "x" 0 [] 0) false).
Proof.
  apply (proj2 (parse_versions Token (read "STRING") "x"
                  (registered [NUMBER]) eq_refl)).
  reflexivity.
Defined.

Example main_throws_in_v1_0_0 :
  exists A', parse_v1_0_0 (read "STRING") "5" (registered [NUMBER])
             = Some (Throw (unexpected_token "STRING" "NUMBER"), A')
             /\ parsing A' = true.
Proof. eexists; split; reflexivity. Qed.

(** ** [read] of version 1.0.0 *)

Lemma isEOF_pure A :
  parsing A = true -> exists b, isEOF A = (Ok b, A).
Proof.
  intros P. rewrite (isEOF_unfold A P).
  destruct (walk_exists (tokenizer A) 0) as [k W].
  rewrite (peek_at_walk_end A 0 k P W). eauto.
Qed.

(** One round of the loop of v1.0.0, with the cursor inside the buffer. *)
Lemma read_loop_v1_0_0_step A tokenType :
  parsing A = true ->
  Tokenizer.lookaheadIndex (tokenizer A)
  < List.length (Tokenizer.lookaheadBuffer (tokenizer A)) ->
  exists eof,
    isEOF (read_on 1 A) = (Ok eof, read_on 1 A)
    /\ read_loop_v1_0_0 (ahead (tokenizer A)) tokenType A
       = if negb eof && is_hidden (Tokenizer.peekToken 0 (tokenizer A))
            && type_differs (Tokenizer.peekToken 0 (tokenizer A)) tokenType
         then read_loop_v1_0_0 (ahead (tokenizer (read_on 1 A))) tokenType
                (read_on 1 A)
         else (Ok (Tokenizer.peekToken 0 (tokenizer A)), read_on 1 A).
Proof.
  intros P L. destruct (isEOF_pure (read_on 1 A) P) as [eof E].
  exists eof. split; [exact E|].
  rewrite (ahead_inside _ L). simpl. unfold bind at 1, on_tokenizer at 1.
  rewrite (nextToken_inside _ L).
  change (set_tokenizer (consumed 1 (tokenizer A)) A) with (read_on 1 A).
  unfold bind at 1. rewrite E.
  destruct (negb eof && is_hidden (Tokenizer.peekToken 0 (tokenizer A))
            && type_differs (Tokenizer.peekToken 0 (tokenizer A)) tokenType);
    reflexivity.
Qed.

Lemma read_loop_v1_0_0_end A tokenType :
  parsing A = true ->
  List.length (Tokenizer.lookaheadBuffer (tokenizer A))
  <= Tokenizer.lookaheadIndex (tokenizer A) ->
  read_loop_v1_0_0 (ahead (tokenizer A)) tokenType A = (Ok None, A).
Proof.
  intros P L. unfold ahead.
  replace (List.length (Tokenizer.lookaheadBuffer (tokenizer A))
           - Tokenizer.lookaheadIndex (tokenizer A)) with 0 by lia.
  simpl. unfold bind at 1, on_tokenizer at 1.
  rewrite (nextToken_outside _ L).
  assert (set_tokenizer (tokenizer A) A = A) as -> by (destruct A; reflexivity).
  destruct (isEOF_pure A P) as [eof E]. unfold bind. rewrite E. reflexivity.
Qed.

(** A token that the loop of v1.0.0 ends on, of the type asked for, is
    the token the loop of this version ends on, at the same cursor. *)
Lemma read_loop_v1_0_0_refines tokenType n :
  forall A t A',
  parsing A = true ->
  ahead (tokenizer A) = n ->
  read_loop_v1_0_0 n tokenType A = (Ok (Some t), A') ->
  type t = tokenType ->
  exists T', read_loop n tokenType (tokenizer A) = (Ok (Some t), T')
             /\ A' = set_tokenizer T' A.
Proof.
  induction n as [|n IH]; intros A t A' P Hn H Ht.
  - assert (List.length (Tokenizer.lookaheadBuffer (tokenizer A))
            <= Tokenizer.lookaheadIndex (tokenizer A)) as L
      by (unfold ahead in Hn; lia).
    rewrite <- Hn, (read_loop_v1_0_0_end A tokenType P L) in H. discriminate.
  - assert (Tokenizer.lookaheadIndex (tokenizer A)
            < List.length (Tokenizer.lookaheadBuffer (tokenizer A))) as L
      by (unfold ahead in Hn; lia).
    assert (ahead (tokenizer (read_on 1 A)) = n) as Hn'
      by (rewrite (ahead_inside _ L) in Hn; simpl; lia).
    destruct (read_loop_v1_0_0_step A tokenType P L) as (eof & _ & S).
    rewrite <- Hn in H. rewrite S in H. clear S.
    rewrite <- Hn, (read_loop_step _ tokenType L).
    destruct (Tokenizer.peekToken 0 (tokenizer A)) as [t0|] eqn:P0; simpl in *.
    + destruct (hidden t0 && negb (String.eqb (type t0) tokenType)) eqn:C.
      * destruct (negb eof); simpl in H.
        -- rewrite C in H. rewrite Hn' in H.
           destruct (IH (read_on 1 A) t A' P Hn' H Ht) as (T' & R & ->).
           exists T'. rewrite Hn'. split; [exact R | reflexivity].
        -- injection H as -> <-. apply andb_true_iff in C.
           destruct C as [_ C]. apply negb_true_iff, String.eqb_neq in C.
           contradiction.
      * replace (negb eof && hidden t0
                 && negb (String.eqb (type t0) tokenType)) with false in H
          by (rewrite <- andb_assoc, C, andb_false_r; reflexivity).
        injection H as -> <-. eexists; split; reflexivity.
    + rewrite andb_false_r in H. discriminate.
Qed.

(** X14.  This version's [read] accepts whatever [read] of version
    1.0.0 accepted: when [read(T)] of 1.0.0 returns a token, [read(T)]
    returns the same token and leaves the same facade.  (The older loop
    also stops skipping as soon as [isEOF()] holds, so it can stop on a
    hidden token of another type where this version goes on to a hidden
    token of type [T] behind it.) *)
Theorem read_accepts_what_v1_0_0_accepted
    (A A' : Anatomize) (tokenType : string) (t : Token) :
  read_v1_0_0 tokenType A = (Ok t, A') ->
  read tokenType A = (Ok t, A').
Proof.
  intros H. destruct (parsing A) eqn:P.
  2:{ unfold read_v1_0_0, bind, errorIfNotParsing in H. rewrite P in H.
      discriminate. }
  unfold read_v1_0_0, bind at 1, errorIfNotParsing in H. rewrite P in H.
  simpl in H. unfold bind in H.
  destruct (read_loop_v1_0_0 (ahead (tokenizer A)) tokenType A)
    as [[[t0|]|e] A1] eqn:R; simpl in H; try discriminate.
  destruct (negb (String.eqb (type t0) tokenType)) eqn:D; [discriminate|].
  injection H as -> ->.
  apply negb_false_iff, String.eqb_eq in D.
  destruct (read_loop_v1_0_0_refines tokenType _ A t A' P eq_refl R D)
    as (T' & R' & ->).
  rewrite (read_unfold A tokenType P), R'.
  apply String.eqb_eq in D. rewrite D. reflexivity.
Qed.

Lemma read_accepts_what_v1_0_0_accepted_witness :
  read ";" (two_lines 1) = (Ok tok_newline, two_lines 2).
Proof.
  apply (read_accepts_what_v1_0_0_accepted (two_lines 1) (two_lines 2) ";"
           tok_newline).
  reflexivity.
Defined.

(** Two hidden tokens of different types at the end of the buffer: this
    version reads the second by its type, v1.0.0 stops on the first. *)
Example read_versions_differ :
  let A := mkAnatomize
             (Tokenizer.mk [] EmptyString 0
                [Some tok_newline; Some (mkToken "TAB" "t" true)] 0) true in
  (exists A', read "TAB" A = (Ok (mkToken "TAB" "t" true), A'))
  /\ exists A', read_v1_0_0 "TAB" A
                = (Throw (unexpected_token "TAB" ";"), A').
Proof. split; eexists; reflexivity. Qed.

(** ** When a routine matches *)

(** X15.  A routine wrapped in a [#Matcher] makes its token type match
    exactly when it returns something other than [false] and [null]
    ([undefined] counts) and has moved the cursor by reading or omitting:
    the match then has the value read (none if it only omitted) and the
    cursor as its length.  Returning [false] or [null], or returning
    without having moved, reports no match whatever was read; and what
    the routine throws is thrown by the attempt. *)
Theorem routine_matches_iff (p : Matcher.pattern) (INPUT : string) :
  (forall rv tv tl,
     Matcher.match_ p INPUT = Ok (rv, tv, tl) ->
     (rv = Matcher.ROther -> 1 <= tl ->
      Tokenizer.attempt (MatcherObj p) INPUT = Ok (tv, tl)
      /\ Tokenizer.no_match tv tl = false)
     /\ (rv <> Matcher.ROther \/ tl = 0 ->
         exists v l, Tokenizer.attempt (MatcherObj p) INPUT = Ok (v, l)
                     /\ Tokenizer.no_match v l = true))
  /\ (forall e, Matcher.match_ p INPUT = Throw e ->
        Tokenizer.attempt (MatcherObj p) INPUT = Throw e).
Proof.
  split.
  - intros rv tv tl H. pose proof (match_within _ _ _ _ _ H) as [_ W].
    simpl. rewrite H. split.
    + intros -> Hl. split; [reflexivity|].
      unfold Tokenizer.no_match.
      replace (tl <? 1) with false by (symmetry; apply Nat.ltb_ge; exact Hl).
      apply andb_false_r.
    + intros [Hrv | ->].
      * destruct rv; try contradiction; exists None, 0; auto.
      * destruct rv; try (exists None, 0; auto; fail).
        exists tv, 0. split; [reflexivity|].
        destruct tv as [s|]; [|reflexivity].
        destruct W as (_ & _ & W). lia.
  - intros e H. simpl. rewrite H. reflexivity.
Qed.

Lemma routine_matches_iff_witness :
  Tokenizer.attempt (MatcherObj hash_routine) "#a" = Ok (None, 1)
  /\ Tokenizer.no_match None 1 = false.
Proof.
  destruct (routine_matches_iff hash_routine "#a") as [H _].
  destruct (H Matcher.ROther None 1 eq_refl) as [H1 _].
  apply (H1 eq_refl (le_n 1)).
Defined.

(** ** Where tokens come from *)

Lemma reads_token_origin types source i t j :
  reads types source i (Ok (Some t)) j ->
  exists d, In d types /\ name d = Some (type t) /\ thidden d = hidden t.
Proof.
  intros H. remember (Ok (Some t)) as r eqn:E.
  induction H as [i F|i pre d post e' E' F A|i pre d post v l t' E' F RM Em
                  |i pre d post v l E' F RM Em EOF
                  |i pre d post v l r j E' F RM Em EOF R IH];
    try discriminate; auto.
  injection E as ->. exists d. subst types.
  apply emitted_some in Em. destruct Em as (N & _ & Hh & _).
  split; [apply in_elt | auto].
Qed.

Lemma fills_token_origin types source i buf r k buf' :
  fills types source i buf r k buf' ->
  forall t, In (Some t) buf' ->
    In (Some t) buf
    \/ exists d, In d types /\ name d = Some (type t) /\ thidden d = hidden t.
Proof.
  induction 1 as [i buf EOF|i buf e j Hi R|i buf Token j r k buf' Hi R F IH];
    intros t Ht; auto.
  destruct (IH t Ht) as [H|H]; [|auto].
  apply in_app_or in H. destruct H as [H|[H|[]]]; [auto|].
  subst Token. right. eapply reads_token_origin; eauto.
Qed.

(** X16.  Every token [initialize] puts into the buffer carries the name
    and the hidden flag of a registered token type; so with no hidden
    type registered no token in the buffer is hidden. *)
Theorem tokens_come_from_registry
    (source : string) (T0 T' : Tokenizer.t) (r : outcome unit) :
  Tokenizer.initialize source T0 = Some (r, T') ->
  (forall t, In (Some t) (Tokenizer.lookaheadBuffer T') ->
     exists d, In d (Tokenizer.TokenTypes T0)
               /\ name d = Some (type t) /\ thidden d = hidden t)
  /\ ((forall d, In d (Tokenizer.TokenTypes T0) -> thidden d = false) ->
      forall t, In (Some t) (Tokenizer.lookaheadBuffer T') ->
                hidden t = false).
Proof.
  intros H. apply initialize_fills in H. destruct H as (F & _).
  assert (forall t, In (Some t) (Tokenizer.lookaheadBuffer T') ->
            exists d, In d (Tokenizer.TokenTypes T0)
                      /\ name d = Some (type t) /\ thidden d = hidden t) as O.
  { intros t Ht. destruct (fills_token_origin _ _ _ _ _ _ _ F t Ht) as [[]|H].
    exact H. }
  split; [exact O|].
  intros Hv t Ht. destruct (O t Ht) as (d & Hd & _ & <-). auto.
Qed.

Lemma tokens_come_from_registry_witness :
  exists d, In d [NUMBER; SEMICOLON; NEWLINE]
            /\ name d = Some (type tok_newline)
            /\ thidden d = hidden tok_newline.
Proof.
  destruct (tokens_come_from_registry ("1" ++ newline ++ "2")
              (tokenizer (registered [NUMBER; SEMICOLON; NEWLINE]))
              (tokenizer (two_lines 0)) (Ok tt) eq_refl) as [H _].
  apply (H tok_newline). simpl. auto.
Defined.
